(** * Conway's Game of Life (src/main.py): engine and controller loop

    A shallow embedding of the simulation core of [src/main.py]: the
    neighbour count on the torus, the generation step, the two generators,
    the event handler and one iteration of the main loop.

    Python integers are [Z]; [%] and [//] are floor operations whose result
    has the sign of the divisor, as [Z.modulo] and [Z.div] are.  The set of
    live positions is a finite set of pairs, [gset (Z * Z)].  Drawing,
    the window and the clock are left out: they never feed back into the
    five variables the loop owns. *)

From Stdlib Require Import ZArith QArith Lia.
From stdpp Require Import base option list gmap sets.

#[local] Open Scope Z_scope.

(** ** Python primitives *)

(** [a % b]: raises ZeroDivisionError for [b = 0]. *)
Definition py_mod (a b : Z) : option Z :=
  if decide (b = 0) then None else Some (a `mod` b).

(** [range(lo, hi)]: empty when [hi <= lo]. *)
Definition range (lo hi : Z) : list Z := seqZ lo (hi - lo).

(** A [for] loop whose body may raise: the first error ends the loop. *)
Fixpoint for_each {A S : Type} (xs : list A) (body : A → S → option S) (s : S)
  : option S :=
  match xs with
  | [] => Some s
  | x :: rest =>
      match body x s with
      | Some s' => for_each rest body s'
      | None => None
      end
  end.

(** A [for] loop whose body cannot raise. *)
Definition for_loop {A S : Type} (xs : list A) (body : A → S → S) (s : S) : S :=
  foldl (λ acc x, body x acc) s xs.

(** ** Constants of the source *)

Definition SCREEN_WIDTH : Z := 1200.
Definition SCREEN_HEIGHT : Z := 1200.
Definition TILE_SIZE : Z := 5.

(** The three constants the functions below are generalised over keep their
    source values here. *)
Module Source.
Definition ROWS : Z := SCREEN_WIDTH `div` TILE_SIZE.
Definition COLS : Z := SCREEN_HEIGHT `div` TILE_SIZE.
Definition UPDATE_FREQ : Z := 2.
End Source.

(** [RANDOM_DENSITY = 0.5], a float that is exactly the rational 1/2. *)
Definition RANDOM_DENSITY : Q := (1 # 2)%Q.

(** pygame's integer codes for the event types, keys and buttons used. *)
Definition QUIT : Z := 256.
Definition KEYDOWN : Z := 768.
Definition MOUSEBUTTONDOWN : Z := 1025.
Definition K_SPACE : Z := 32.
Definition K_c : Z := 99.
Definition K_p : Z := 112.
Definition K_r : Z := 114.

(** The eight Moore offsets, in the order of the source. *)
Definition offsets : list (Z * Z) :=
  [(-1, -1); (-1, 0); (-1, 1); (0, -1); (0, 1); (1, -1); (1, 0); (1, 1)].

Section Life.

(** The grid dimensions and the update threshold are module constants in
    the source ([Source.ROWS], [Source.COLS], [Source.UPDATE_FREQ]); the
    functions are stated over arbitrary values of them. *)
Variables ROWS COLS UPDATE_FREQ : Z.

(** ** Generation engine *)

Definition count_live_neighbors (grid_positions : gset (Z * Z))
    (position : Z * Z) : option Z :=
  let '(x, y) := position in
  for_each offsets
    (λ '(offset_x, offset_y) count_of_live_neighbors,
       neighbor_x ← py_mod (x + offset_x) COLS;
       neighbor_y ← py_mod (y + offset_y) ROWS;
       let neighbor_pos := (neighbor_x, neighbor_y) in
       if decide (neighbor_pos ∈ grid_positions)
       then Some (count_of_live_neighbors + 1)
       else Some count_of_live_neighbors)
    0.

(** The body of the inner loop of [apply_rules]. *)
Definition apply_rules_cell (grid_positions : gset (Z * Z)) (row col : Z)
    (updated_grid_positions : gset (Z * Z)) : option (gset (Z * Z)) :=
  let position := (row, col) in
  count_of_live_neighbors ← count_live_neighbors grid_positions position;
  if bool_decide (position ∈ grid_positions)
     && (bool_decide (count_of_live_neighbors = 2)
         || bool_decide (count_of_live_neighbors = 3))
  then Some ({[position]} ∪ updated_grid_positions)
  else if bool_decide (count_of_live_neighbors = 3)
          && bool_decide (position ∉ grid_positions)
  then Some ({[position]} ∪ updated_grid_positions)
  else Some updated_grid_positions.

Definition apply_rules (grid_positions : gset (Z * Z))
    : option (gset (Z * Z)) :=
  for_each (range 0 ROWS)
    (λ row, for_each (range 0 COLS) (apply_rules_cell grid_positions row))
    ∅.

(** ** Generators *)

(** [random.random()] is the environment's: [rand k] is the float the
    [k]-th call returns, a dyadic rational, so that the comparison with
    [RANDOM_DENSITY] is the comparison of rationals.  The loop threads the
    number of draws made so far. *)
Definition generate_random_grid_positions (rand : nat → Q) : gset (Z * Z) :=
  snd (for_loop (range 0 ROWS)
         (λ y, for_loop (range 0 COLS)
            (λ x '(draws, random_grid_positions),
               if Qlt_le_dec (rand draws) RANDOM_DENSITY
               then let random_pos := (x, y) in
                    (S draws, {[random_pos]} ∪ random_grid_positions)
               else (S draws, random_grid_positions)))
         (O, ∅)).

(** [if test: acc.add(p)] *)
Definition add_if (test : bool) (p : Z * Z) (acc : gset (Z * Z))
    : gset (Z * Z) :=
  if test then {[p]} ∪ acc else acc.

(** The body of the inner loop of [generate_pattern]: five tests in a row,
    each of which adds [(x, y)]. *)
Definition generate_pattern_cell (y x : Z)
    (pattern_grid_positions : gset (Z * Z)) : gset (Z * Z) :=
  let cross :=
    add_if (bool_decide (x = COLS `div` 2) || bool_decide (y = ROWS `div` 2))
           (x, y) pattern_grid_positions in
  let diagonals :=
    add_if (bool_decide (x = y) || bool_decide (x = COLS - y))
           (x, y) cross in
  let circle :=
    add_if (bool_decide (((ROWS - 10) `div` 2) ^ 2
                           < (x - COLS `div` 2) ^ 2 + (y - ROWS `div` 2) ^ 2)
            && bool_decide ((x - COLS `div` 2) ^ 2 + (y - ROWS `div` 2) ^ 2
                              < (ROWS `div` 2) ^ 2))
           (x, y) diagonals in
  let parabola :=
    add_if (bool_decide (y = ROWS `div` 2 - (x - COLS `div` 2) ^ 2 `div` 100))
           (x, y) circle in
  add_if (bool_decide (y = ROWS `div` 2 - (x - COLS `div` 2) ^ 4 `div` 1000000))
         (x, y) parabola.

Definition generate_pattern : gset (Z * Z) :=
  for_loop (range 0 ROWS)
    (λ y, for_loop (range 0 COLS) (generate_pattern_cell y))
    ∅.

(** ** Events *)

(** A pygame event: its type code and, as far as the handler reads them,
    the key of a key event and the button of a mouse event. *)
Record Event := { type : Z; key : Z; button : Z }.

(** What the handler draws from the environment while it treats one
    event: [pygame.mouse.get_pos()] and the random source. *)
Record Input := {
  event : Event;
  mouse_pos : Z * Z;
  rand : nat → Q
}.

(** The five variables of [main]. *)
Record State := {
  grid_positions : gset (Z * Z);
  count : Z;
  playing : bool;
  running : bool;
  iteration : Z
}.

Definition handle_mouse_click (mouse_pos : Z * Z)
    (grid_positions : gset (Z * Z)) : gset (Z * Z) :=
  let grid_pos := (mouse_pos.1 `div` TILE_SIZE, mouse_pos.2 `div` TILE_SIZE) in
  if decide (grid_pos ∈ grid_positions)
  then grid_positions ∖ {[grid_pos]}
  else {[grid_pos]} ∪ grid_positions.

Definition handle_event (inp : Input) (s : State) : State :=
  let ev := event inp in
  if bool_decide (type ev = QUIT) then
    {| grid_positions := grid_positions s; count := count s;
       playing := playing s; running := false; iteration := iteration s |}
  else if bool_decide (type ev = KEYDOWN) then
    if bool_decide (key ev = K_SPACE) then
      {| grid_positions := grid_positions s; count := count s;
         playing := negb (playing s); running := running s;
         iteration := iteration s |}
    else if bool_decide (key ev = K_c) then
      {| grid_positions := ∅; count := 0;
         playing := false; running := running s; iteration := 0 |}
    else if bool_decide (key ev = K_r) then
      {| grid_positions := generate_random_grid_positions (rand inp);
         count := count s;
         playing := playing s; running := running s; iteration := 0 |}
    else if bool_decide (key ev = K_p) then
      {| grid_positions := generate_pattern; count := count s;
         playing := false; running := running s; iteration := 0 |}
    else s
  else if bool_decide (type ev = MOUSEBUTTONDOWN)
          && bool_decide (button ev = 1) then
    {| grid_positions := handle_mouse_click (mouse_pos inp) (grid_positions s);
       count := count s;
       playing := playing s; running := running s;
       iteration := iteration s |}
  else s.

(** ** The main loop *)

Definition initial_state : State :=
  {| grid_positions := ∅; count := 0; playing := false; running := true;
     iteration := 0 |}.

(** [if playing: count = count + 1; iteration = iteration + 1] *)
Definition advance (s : State) : State :=
  if playing s then
    {| grid_positions := grid_positions s; count := count s + 1;
       playing := playing s; running := running s;
       iteration := iteration s + 1 |}
  else s.

(** Whether the frame that starts in [s] replaces the set by the next
    generation: the test [count >= UPDATE_FREQ] after [advance]. *)
Definition transition_due (s : State) : bool :=
  bool_decide (UPDATE_FREQ ≤ count (advance s)).

(** [if count >= UPDATE_FREQ: count = 0; grid_positions = apply_rules(..)] *)
Definition update (s : State) : option State :=
  if bool_decide (UPDATE_FREQ ≤ count s) then
    next ← apply_rules (grid_positions s);
    Some {| grid_positions := next; count := 0;
            playing := playing s; running := running s;
            iteration := iteration s |}
  else Some s.

(** One iteration of [while running]: the counters, the update, then the
    events of the frame in their order. *)
Definition main_step (events : list Input) (s : State) : option State :=
  s' ← update (advance s);
  Some (for_loop events handle_event s').

(** The loop over the frames the environment delivers; it ends when
    [running] is false. *)
Fixpoint main_loop (frames : list (list Input)) (s : State) : option State :=
  match frames with
  | [] => Some s
  | events :: rest =>
      if running s then s' ← main_step events s; main_loop rest s'
      else Some s
  end.

End Life.

(** ** Specification-level notions *)

(** The cells [count_live_neighbors] looks up for [position]: each offset
    added and wrapped, columns on the first component and rows on the
    second.  Only meaningful when neither dimension is 0. *)
Definition wrapped_neighbors (ROWS COLS : Z) (position : Z * Z)
    : list (Z * Z) :=
  map (λ off, ((position.1 + off.1) `mod` COLS, (position.2 + off.2) `mod` ROWS))
      offsets.

(** The fate of one cell under the rules, given its count. *)
Definition next_alive (g : gset (Z * Z)) (position : Z * Z) (n : Z) : Prop :=
  (position ∈ g ∧ (n = 2 ∨ n = 3)) ∨ ((position ∉ g) ∧ n = 3).

(** A coordinate [(x, y)] of the grid: [x] a column, [y] a row. *)
Definition in_bounds (ROWS COLS : Z) (p : Z * Z) : Prop :=
  (0 ≤ p.1 < COLS) ∧ (0 ≤ p.2 < ROWS).

(** The cell [handle_mouse_click] computes from the mouse position. *)
Definition clicked_cell (mouse_pos : Z * Z) : Z * Z :=
  (mouse_pos.1 `div` TILE_SIZE, mouse_pos.2 `div` TILE_SIZE).

Definition is_left_click (ev : Event) : bool :=
  bool_decide (type ev = MOUSEBUTTONDOWN) && bool_decide (button ev = 1).

(** The key presses that set [iteration] back to 0: c, r and p. *)
Definition is_reset (ev : Event) : bool :=
  bool_decide (type ev = KEYDOWN)
  && (bool_decide (key ev = K_c) || bool_decide (key ev = K_r)
      || bool_decide (key ev = K_p)).

Definition has_reset (events : list Input) : bool :=
  existsb (λ inp, is_reset (event inp)) events.

(** The past of a run, latest frame first: the state each frame started in
    and the events it received. *)
Definition History : Type := list (State * list Input).

(** Frames since the latest reset that started in playing mode. *)
Fixpoint playing_ticks_since_reset (h : History) : Z :=
  match h with
  | [] => 0
  | (s, events) :: older =>
      if has_reset events then 0
      else (if playing s then 1 else 0) + playing_ticks_since_reset older
  end.

(** Frames since the latest reset in which the set was replaced by the next
    generation. *)
Fixpoint transitions_since_reset (UPDATE_FREQ : Z) (h : History) : Z :=
  match h with
  | [] => 0
  | (s, events) :: older =>
      if has_reset events then 0
      else (if transition_due UPDATE_FREQ s then 1 else 0)
           + transitions_since_reset UPDATE_FREQ older
  end.

(** The states [main] can be in at the top of its loop, with their past,
    when every input is taken from [adm]. *)
Inductive reachable (ROWS COLS UPDATE_FREQ : Z) (adm : Input → Prop)
    : History → State → Prop :=
  | reach_init : reachable ROWS COLS UPDATE_FREQ adm [] initial_state
  | reach_frame h s events s' :
      reachable ROWS COLS UPDATE_FREQ adm h s →
      running s = true →
      Forall adm events →
      main_step ROWS COLS UPDATE_FREQ events s = Some s' →
      reachable ROWS COLS UPDATE_FREQ adm ((s, events) :: h) s'.

(** [main_loop] with the past recorded. *)
Fixpoint run (ROWS COLS UPDATE_FREQ : Z) (frames : list (list Input))
    (h : History) (s : State) : option (History * State) :=
  match frames with
  | [] => Some (h, s)
  | events :: rest =>
      if running s then
        s' ← main_step ROWS COLS UPDATE_FREQ events s;
        run ROWS COLS UPDATE_FREQ rest ((s, events) :: h) s'
      else Some (h, s)
  end.

(** The inputs whose left clicks fall on a cell of the grid. *)
Definition click_in_grid (ROWS COLS : Z) (inp : Input) : Prop :=
  is_left_click (event inp) = true →
  in_bounds ROWS COLS (clicked_cell (mouse_pos inp)).

(** ** Concrete inputs *)

Definition key_press (k : Z) : Input :=
  {| event := {| type := KEYDOWN; key := k; button := 0 |};
     mouse_pos := (0, 0); rand := λ _, 0%Q |}.

Definition left_click (pos : Z * Z) : Input :=
  {| event := {| type := MOUSEBUTTONDOWN; key := 0; button := 1 |};
     mouse_pos := pos; rand := λ _, 0%Q |}.

(** pygame's [MOUSEMOTION]. *)
Definition mouse_motion (pos : Z * Z) : Input :=
  {| event := {| type := 1024; key := 0; button := 0 |};
     mouse_pos := pos; rand := λ _, 0%Q |}.

Definition paused_with (g : gset (Z * Z)) : State :=
  {| grid_positions := g; count := 0; playing := false; running := true;
     iteration := 0 |}.

(** A running, playing state with an empty grid. *)
Definition playing_empty (c i : Z) : State :=
  {| grid_positions := ∅; count := c; playing := true; running := true;
     iteration := i |}.

Definition blinker_v : gset (Z * Z) := {[ (5, 5); (5, 6); (5, 7) ]}.
Definition blinker_h : gset (Z * Z) := {[ (4, 6); (5, 6); (6, 6) ]}.

(** ** Drawing *)

(** The screen is written to and never read: the drawing functions are
    modelled by the calls they make on it. *)
Definition BLACK : Z * Z * Z := (0, 0, 0).
Definition GREEN : Z * Z * Z := (0, 255, 0).
Definition GRID_THICKNESS : Z := 1.

Inductive Draw :=
  | DrawLine (color : Z * Z * Z) (start_pos end_pos : Z * Z) (width : Z)
  | DrawRect (color : Z * Z * Z) (rect : Z * Z * Z * Z).

(** [draw_grid]: one horizontal line per row, then one vertical line per
    column, in this order. *)
Definition draw_grid (ROWS COLS : Z) : list Draw :=
  map (λ row, DrawLine BLACK (0, row * TILE_SIZE) (SCREEN_WIDTH, row * TILE_SIZE)
                GRID_THICKNESS)
      (range 0 ROWS)
  ++ map (λ col, DrawLine BLACK (col * TILE_SIZE, 0) (col * TILE_SIZE, SCREEN_HEIGHT)
                   GRID_THICKNESS)
         (range 0 COLS).

(** [draw_positions]: one filled square per live position.  Python fixes no
    order for the iteration over a set; [elements] stands for it. *)
Definition draw_positions (grid_positions : gset (Z * Z)) : list Draw :=
  map (λ '(grid_x, grid_y),
         DrawRect GREEN (grid_x * TILE_SIZE, grid_y * TILE_SIZE, TILE_SIZE, TILE_SIZE))
      (elements grid_positions).

(** The pixels a rectangle [(left, top, width, height)] fills. *)
Definition rect_covers (rect : Z * Z * Z * Z) (pixel : Z * Z) : Prop :=
  let '(rx, ry, width, height) := rect in
  (rx ≤ pixel.1 < rx + width) ∧ (ry ≤ pixel.2 < ry + height).

(** ** Further specification-level notions *)

(** The pairs [apply_rules] builds and tests: [(row, col)]. *)
Definition scanned (ROWS COLS : Z) (p : Z * Z) : Prop :=
  (0 ≤ p.1 < ROWS) ∧ (0 ≤ p.2 < COLS).

Definition is_quit (ev : Event) : bool := bool_decide (type ev = QUIT).

Definition has_quit (events : list Input) : bool :=
  existsb (λ inp, is_quit (event inp)) events.

#[global] Instance in_bounds_dec (ROWS COLS : Z) (p : Z * Z) :
  Decision (in_bounds ROWS COLS p).
Proof. unfold in_bounds. apply _. Defined.

(** ** Loops *)

Lemma elem_of_range (lo hi x : Z) : x ∈ range lo hi ↔ lo ≤ x < hi.
Proof. unfold range. rewrite elem_of_seqZ. lia. Qed.

(** A fallible loop whose body only ever adds to a set: the result holds
    what was there and what some iteration added. *)
Lemma for_each_elem_of {A K : Type} `{Countable K}
    (xs : list A) (body : A → gset K → option (gset K))
    (added : A → K → Prop) :
  (∀ a s, a ∈ xs →
     ∃ s', body a s = Some s' ∧ ∀ p, p ∈ s' ↔ p ∈ s ∨ added a p) →
  ∀ s0, ∃ s', for_each xs body s0 = Some s' ∧
     ∀ p, p ∈ s' ↔ p ∈ s0 ∨ ∃ a, a ∈ xs ∧ added a p.
Proof.
  induction xs as [|x xs IH]; intros Hbody s0; simpl.
  - exists s0. split; [done|]. intros p. split; [auto|].
    intros [Hp | (a & Ha & _)]; [done|]. by apply elem_of_nil in Ha.
  - destruct (Hbody x s0) as (s1 & -> & Hs1); [left|].
    destruct (IH (λ a s Ha, Hbody a s (list_elem_of_further _ _ _ Ha)) s1)
      as (s2 & -> & Hs2).
    exists s2. split; [done|]. intros p. rewrite Hs2, Hs1. split.
    + intros [[Hp | Hx] | (a & Ha & Hadd)]; [by left | |].
      * right. exists x. split; [left | done].
      * right. exists a. split; [by right | done].
    + intros [Hp | (a & Ha & Hadd)]; [by left; left|].
      apply elem_of_cons in Ha as [-> | Ha]; [by left; right|].
      right. by exists a.
Qed.

(** A property of the loop state that every iteration keeps. *)
Lemma for_loop_invariant {A S : Type} (P : S → Prop)
    (xs : list A) (body : A → S → S) (s0 : S) :
  P s0 → (∀ a s, a ∈ xs → P s → P (body a s)) → P (for_loop xs body s0).
Proof.
  unfold for_loop. revert s0.
  induction xs as [|x xs IH]; intros s0 H0 Hbody; simpl; [done|].
  apply IH.
  - apply Hbody; [left | done].
  - intros a s Ha. apply Hbody. by right.
Qed.

(** ** The neighbour count *)

Lemma py_mod_Some (a b : Z) : b ≠ 0 → py_mod a b = Some (a `mod` b).
Proof. intros Hb. unfold py_mod. by rewrite decide_False. Qed.

(** The loop of [count_live_neighbors], from any list of offsets and any
    starting count. *)
Lemma count_loop (ROWS COLS : Z) (g : gset (Z * Z)) (x y : Z)
    (offs : list (Z * Z)) (acc : Z) :
  ROWS ≠ 0 → COLS ≠ 0 →
  for_each offs
    (λ '(offset_x, offset_y) count_of_live_neighbors,
       neighbor_x ← py_mod (x + offset_x) COLS;
       neighbor_y ← py_mod (y + offset_y) ROWS;
       let neighbor_pos := (neighbor_x, neighbor_y) in
       if decide (neighbor_pos ∈ g)
       then Some (count_of_live_neighbors + 1)
       else Some count_of_live_neighbors)
    acc
  = Some (acc + Z.of_nat (length (filter (.∈ g)
       (map (λ off, ((x + off.1) `mod` COLS, (y + off.2) `mod` ROWS)) offs)))).
Proof.
  intros HR HC. revert acc.
  induction offs as [|[ox oy] offs IH]; intros acc; simpl.
  - f_equal. lia.
  - rewrite !py_mod_Some by done. simpl.
    rewrite filter_cons. simpl. destruct (decide _) as [Hin | Hout].
    + rewrite IH. simpl. f_equal. lia.
    + by rewrite IH.
Qed.

Lemma count_live_neighbors_eq (ROWS COLS : Z) (g : gset (Z * Z))
    (position : Z * Z) :
  ROWS ≠ 0 → COLS ≠ 0 →
  count_live_neighbors ROWS COLS g position
  = Some (Z.of_nat (length (filter (.∈ g)
                              (wrapped_neighbors ROWS COLS position)))).
Proof.
  intros HR HC. destruct position as [x y].
  unfold count_live_neighbors, wrapped_neighbors.
  by rewrite count_loop.
Qed.

Lemma wrapped_neighbors_length (ROWS COLS : Z) (position : Z * Z) :
  length (wrapped_neighbors ROWS COLS position) = 8%nat.
Proof. reflexivity. Qed.

Lemma wrapped_neighbors_in_grid (ROWS COLS : Z) (position q : Z * Z) :
  0 < ROWS → 0 < COLS →
  q ∈ wrapped_neighbors ROWS COLS position →
  0 ≤ q.1 < COLS ∧ 0 ≤ q.2 < ROWS.
Proof.
  intros HR HC. unfold wrapped_neighbors.
  rewrite list_elem_of_fmap. intros (off & -> & _). simpl.
  split; apply Z.mod_pos_bound; lia.
Qed.

(** ** The generation step *)

Lemma apply_rules_cell_spec (ROWS COLS : Z) (g : gset (Z * Z))
    (row col : Z) (upd : gset (Z * Z)) :
  ROWS ≠ 0 → COLS ≠ 0 →
  ∃ n upd', count_live_neighbors ROWS COLS g (row, col) = Some n ∧
    apply_rules_cell ROWS COLS g row col upd = Some upd' ∧
    ∀ p, p ∈ upd' ↔ p ∈ upd ∨ (p = (row, col) ∧ next_alive g (row, col) n).
Proof.
  intros HR HC. unfold apply_rules_cell.
  pose proof (count_live_neighbors_eq ROWS COLS g (row, col) HR HC) as Hn.
  set (n := Z.of_nat _) in Hn. exists n. rewrite Hn. simpl.
  unfold next_alive.
  repeat case_bool_decide; simpl;
    eexists; (split; [reflexivity|]); (split; [reflexivity|]);
    intros p; rewrite ?elem_of_union, ?elem_of_singleton;
    intuition (try lia; try congruence).
Qed.

(** Membership in the result of [apply_rules], for any dimensions. *)
Lemma apply_rules_elem_of (ROWS COLS : Z) (g : gset (Z * Z)) :
  ∃ updated, apply_rules ROWS COLS g = Some updated ∧
    ∀ p, p ∈ updated ↔
      (0 ≤ p.1 < ROWS ∧ 0 ≤ p.2 < COLS) ∧
      ∃ n, count_live_neighbors ROWS COLS g p = Some n ∧ next_alive g p n.
Proof.
  unfold apply_rules.
  destruct (for_each_elem_of (range 0 ROWS)
    (λ row, for_each (range 0 COLS) (apply_rules_cell ROWS COLS g row))
    (λ row p, ∃ col, col ∈ range 0 COLS ∧ p = (row, col) ∧
       ∃ n, count_live_neighbors ROWS COLS g (row, col) = Some n ∧
            next_alive g (row, col) n)) with (s0 := (∅ : gset (Z * Z)))
    as (updated & Hrun & Hmem).
  - intros row s Hrow. apply elem_of_range in Hrow.
    apply (for_each_elem_of (range 0 COLS)
      (apply_rules_cell ROWS COLS g row)
      (λ col p, p = (row, col) ∧
         ∃ n, count_live_neighbors ROWS COLS g (row, col) = Some n ∧
              next_alive g (row, col) n)).
    intros col s' Hcol. apply elem_of_range in Hcol.
    destruct (apply_rules_cell_spec ROWS COLS g row col s')
      as (n & upd' & Hn & Hcell & Hupd'); [lia | lia |].
    exists upd'. split; [done|]. intros p. rewrite Hupd'.
    split; (intros [Hp | Hp]; [by left | right]).
    + destruct Hp as [-> Hp]. split; [done|]. by exists n.
    + destruct Hp as [-> (n' & Hn' & Hp)].
      split; [done|]. congruence.
  - exists updated. split; [done|]. intros [row col]. rewrite Hmem. simpl.
    split.
    + intros [Hp | (row' & Hrow & col' & Hcol & Heq & Hrule)];
        [by apply not_elem_of_empty in Hp|].
      apply elem_of_range in Hrow, Hcol. by simplify_eq.
    + intros [[Hrow Hcol] Hrule]. right.
      exists row. split; [by apply elem_of_range|].
      exists col. split; [by apply elem_of_range|]. done.
Qed.


(** Every cell [apply_rules] stores is a cell it scanned. *)
Lemma apply_rules_scanned (ROWS COLS : Z) (g updated : gset (Z * Z)) (p : Z * Z) :
  apply_rules ROWS COLS g = Some updated → p ∈ updated →
  0 ≤ p.1 < ROWS ∧ 0 ≤ p.2 < COLS.
Proof.
  intros Hrun Hp.
  destruct (apply_rules_elem_of ROWS COLS g) as (updated' & Hrun' & Hmem).
  rewrite Hrun in Hrun'. injection Hrun' as <-. by apply Hmem in Hp as [? _].
Qed.

(** [apply_rules] builds [(row, col)] while [count_live_neighbors] reads a
    pair as [(x, y)], column first.  The source's grid is square, where the
    two agree; on a grid of 2 rows and 3 columns the scan reaches the pair
    (0, 2), which is not a cell of that grid. *)
Example apply_rules_scan_rectangular :
  apply_rules 2 3 {[ (2, 0); (0, 1) ]}
  = Some {[ (0, 0); (0, 1); (0, 2); (1, 0); (1, 1); (1, 2) ]}
  ∧ ¬ in_bounds 2 3 (0, 2).
Proof.
  split; [vm_compute; reflexivity|].
  intros [_ [_ Hrow]]. vm_compute in Hrow. discriminate.
Qed.

(** ** The generators *)

Lemma generate_random_in_bounds (ROWS COLS : Z) (rand : nat → Q) (p : Z * Z) :
  p ∈ generate_random_grid_positions ROWS COLS rand → in_bounds ROWS COLS p.
Proof.
  unfold generate_random_grid_positions. revert p.
  apply (for_loop_invariant
    (λ st : nat * gset (Z * Z), ∀ p, p ∈ st.2 → in_bounds ROWS COLS p)).
  - simpl. intros p Hp. by apply not_elem_of_empty in Hp.
  - intros y st Hy Hst. apply elem_of_range in Hy.
    apply for_loop_invariant; [done|].
    intros x [draws acc] Hx Hacc. apply elem_of_range in Hx.
    destruct (Qlt_le_dec _ _); simpl in *; [|done].
    intros p. rewrite elem_of_union, elem_of_singleton.
    intros [-> | Hp]; [by split | by apply Hacc].
Qed.

Lemma add_if_in_bounds (ROWS COLS : Z) (test : bool) (p : Z * Z)
    (acc : gset (Z * Z)) :
  in_bounds ROWS COLS p →
  (∀ q, q ∈ acc → in_bounds ROWS COLS q) →
  ∀ q, q ∈ add_if test p acc → in_bounds ROWS COLS q.
Proof.
  intros Hp Hacc q. unfold add_if. destruct test; [|apply Hacc].
  rewrite elem_of_union, elem_of_singleton. intros [-> | Hq]; auto.
Qed.

Lemma generate_pattern_in_bounds (ROWS COLS : Z) (p : Z * Z) :
  p ∈ generate_pattern ROWS COLS → in_bounds ROWS COLS p.
Proof.
  unfold generate_pattern. revert p.
  apply (for_loop_invariant
    (λ acc : gset (Z * Z), ∀ p, p ∈ acc → in_bounds ROWS COLS p)).
  - intros p Hp. by apply not_elem_of_empty in Hp.
  - intros y acc Hy Hacc. apply elem_of_range in Hy.
    apply for_loop_invariant; [done|].
    intros x acc' Hx Hacc'. apply elem_of_range in Hx.
    unfold generate_pattern_cell.
    repeat (apply add_if_in_bounds; [by split|]). done.
Qed.

(** ** The click *)

Lemma handle_mouse_click_elem_of (mouse_pos : Z * Z) (g : gset (Z * Z))
    (q : Z * Z) :
  q ∈ handle_mouse_click mouse_pos g ↔
  (q = clicked_cell mouse_pos ∧ q ∉ g) ∨ (q ≠ clicked_cell mouse_pos ∧ q ∈ g).
Proof.
  unfold handle_mouse_click. fold (clicked_cell mouse_pos).
  destruct (decide (clicked_cell mouse_pos ∈ g)) as [Hin | Hout].
  - rewrite elem_of_difference, elem_of_singleton. split.
    + intros [Hq Hne]. by right.
    + intros [[-> Hq] | [Hne Hq]]; done.
  - rewrite elem_of_union, elem_of_singleton. split.
    + intros [-> | Hq]; [by left|]. right. split; [|done]. by intros ->.
    + intros [[-> _] | [_ Hq]]; [by left | by right].
Qed.

(** Every cell is the clicked cell of some mouse position. *)
Lemma clicked_cell_onto (cell : Z * Z) :
  clicked_cell (cell.1 * TILE_SIZE, cell.2 * TILE_SIZE) = cell.
Proof.
  destruct cell as [x y]. unfold clicked_cell, TILE_SIZE. simpl.
  by rewrite !Z.div_mul.
Qed.

(** ** The handler, field by field *)

Ltac handler_cases inp :=
  destruct inp as [[t k b] pos rd];
  unfold handle_event, is_reset, is_left_click,
         QUIT, KEYDOWN, MOUSEBUTTONDOWN, K_SPACE, K_c, K_r, K_p in *;
  simpl in *;
  repeat (case_bool_decide; simpl in *); subst; try done; try lia.

Lemma handle_event_iteration (ROWS COLS : Z) (inp : Input) (s : State) :
  iteration (handle_event ROWS COLS inp s)
  = if is_reset (event inp) then 0 else iteration s.
Proof. handler_cases inp. Qed.

Lemma handle_event_count (ROWS COLS : Z) (inp : Input) (s : State) :
  count (handle_event ROWS COLS inp s) = count s
  ∨ count (handle_event ROWS COLS inp s) = 0.
Proof. handler_cases inp; auto. Qed.

Lemma handle_event_grid (ROWS COLS : Z) (inp : Input) (s : State) (p : Z * Z) :
  p ∈ grid_positions (handle_event ROWS COLS inp s) →
  p ∈ grid_positions s
  ∨ in_bounds ROWS COLS p
  ∨ (is_left_click (event inp) = true ∧ p = clicked_cell (mouse_pos inp)).
Proof.
  destruct inp as [[t k b] pos rd].
  unfold handle_event, is_left_click. simpl.
  repeat (case_bool_decide; simpl); auto; intros Hp;
    first [ by apply not_elem_of_empty in Hp
          | right; left; by apply generate_random_in_bounds in Hp
          | right; left; by apply generate_pattern_in_bounds in Hp
          | apply handle_mouse_click_elem_of in Hp as [[-> _] | [_ Hp]]; auto ].
Qed.

(** The event loop of one frame. *)
Lemma events_iteration (ROWS COLS : Z) (events : list Input) (s : State) :
  iteration (for_loop events (handle_event ROWS COLS) s)
  = if has_reset events then 0 else iteration s.
Proof.
  unfold for_loop, has_reset. revert s.
  induction events as [|inp events IH]; intros s; simpl; [done|].
  rewrite IH, handle_event_iteration.
  destruct (is_reset (event inp)); simpl; [|done].
  by destruct (existsb _ events).
Qed.

Lemma events_count (ROWS COLS UPDATE_FREQ : Z) (events : list Input) (s : State) :
  0 < UPDATE_FREQ → 0 ≤ count s < UPDATE_FREQ →
  0 ≤ count (for_loop events (handle_event ROWS COLS) s) < UPDATE_FREQ.
Proof.
  intros HF Hs.
  apply (for_loop_invariant (λ st, 0 ≤ count st < UPDATE_FREQ)); [done|].
  intros inp st _ Hst.
  destruct (handle_event_count ROWS COLS inp st) as [-> | ->]; lia.
Qed.

Lemma events_in_bounds (ROWS COLS : Z) (events : list Input) (s : State) :
  Forall (click_in_grid ROWS COLS) events →
  (∀ p, p ∈ grid_positions s → in_bounds ROWS COLS p) →
  ∀ p, p ∈ grid_positions (for_loop events (handle_event ROWS COLS) s) →
       in_bounds ROWS COLS p.
Proof.
  intros Hadm Hs. rewrite Forall_forall in Hadm.
  apply (for_loop_invariant
    (λ st, ∀ p, p ∈ grid_positions st → in_bounds ROWS COLS p)); [done|].
  intros inp st Hinp Hst p Hp.
  apply handle_event_grid in Hp as [Hp | [Hp | [Hclick ->]]]; auto.
  by apply (Hadm inp).
Qed.

(** ** One frame *)

Lemma advance_fields (s : State) :
  grid_positions (advance s) = grid_positions s
  ∧ playing (advance s) = playing s
  ∧ running (advance s) = running s
  ∧ count (advance s) = count s + (if playing s then 1 else 0)
  ∧ iteration (advance s) = iteration s + (if playing s then 1 else 0).
Proof. unfold advance. destruct (playing s) eqn:E; simpl; repeat split; auto; lia. Qed.

(** The update never fails; it either leaves the state alone or installs
    the next generation and clears [count]. *)
Lemma update_cases (ROWS COLS UPDATE_FREQ : Z) (s : State) :
  (count s < UPDATE_FREQ ∧ update ROWS COLS UPDATE_FREQ s = Some s)
  ∨ (UPDATE_FREQ ≤ count s ∧
     ∃ next, apply_rules ROWS COLS (grid_positions s) = Some next ∧
       update ROWS COLS UPDATE_FREQ s
       = Some {| grid_positions := next; count := 0; playing := playing s;
                 running := running s; iteration := iteration s |}).
Proof.
  unfold update. case_bool_decide as Hdue.
  - right. split; [done|].
    destruct (apply_rules_elem_of ROWS COLS (grid_positions s))
      as (next & -> & _).
    by exists next.
  - left. split; [lia | done].
Qed.

Lemma main_step_total (ROWS COLS UPDATE_FREQ : Z) (events : list Input)
    (s : State) :
  ∃ s1, update ROWS COLS UPDATE_FREQ (advance s) = Some s1 ∧
        main_step ROWS COLS UPDATE_FREQ events s
        = Some (for_loop events (handle_event ROWS COLS) s1).
Proof.
  unfold main_step.
  destruct (update_cases ROWS COLS UPDATE_FREQ (advance s))
    as [[_ ->] | [_ (next & _ & ->)]]; eauto.
Qed.

(** ** Invariants of the loop *)

Lemma reachable_count (ROWS COLS UPDATE_FREQ : Z) (adm : Input → Prop)
    (h : History) (s : State) :
  0 < UPDATE_FREQ →
  reachable ROWS COLS UPDATE_FREQ adm h s → 0 ≤ count s < UPDATE_FREQ.
Proof.
  intros HF Hreach.
  induction Hreach as [|h s events s' Hreach IH Hrun Hadm Hstep]; [simpl; lia|].
  destruct (main_step_total ROWS COLS UPDATE_FREQ events s) as (s1 & Hupd & Hs').
  rewrite Hstep in Hs'. injection Hs' as ->.
  apply events_count; [done|].
  destruct (update_cases ROWS COLS UPDATE_FREQ (advance s))
    as [[Hlt Heq] | [_ (next & _ & Heq)]];
    rewrite Heq in Hupd; injection Hupd as <-; simpl; [|lia].
  destruct (advance_fields s) as (_ & _ & _ & Hc & _). rewrite Hc in *.
  destruct (playing s); lia.
Qed.

Lemma reachable_iteration (ROWS COLS UPDATE_FREQ : Z) (adm : Input → Prop)
    (h : History) (s : State) :
  reachable ROWS COLS UPDATE_FREQ adm h s →
  iteration s = playing_ticks_since_reset h.
Proof.
  intros Hreach.
  induction Hreach as [|h s events s' Hreach IH Hrun Hadm Hstep]; [done|].
  destruct (main_step_total ROWS COLS UPDATE_FREQ events s) as (s1 & Hupd & Hs').
  rewrite Hstep in Hs'. injection Hs' as ->.
  simpl. rewrite events_iteration. destruct (has_reset events); [done|].
  rewrite <- IH.
  destruct (advance_fields s) as (_ & _ & _ & _ & Hi).
  destruct (update_cases ROWS COLS UPDATE_FREQ (advance s))
    as [[_ Heq] | [_ (next & _ & Heq)]];
    rewrite Heq in Hupd; injection Hupd as <-; simpl; rewrite Hi; lia.
Qed.

Lemma reachable_in_bounds (ROWS COLS UPDATE_FREQ : Z) (h : History) (s : State) :
  ROWS = COLS →
  reachable ROWS COLS UPDATE_FREQ (click_in_grid ROWS COLS) h s →
  ∀ p, p ∈ grid_positions s → in_bounds ROWS COLS p.
Proof.
  intros Hsq Hreach.
  induction Hreach as [|h s events s' Hreach IH Hrun Hadm Hstep].
  - intros p Hp. by apply not_elem_of_empty in Hp.
  - destruct (main_step_total ROWS COLS UPDATE_FREQ events s)
      as (s1 & Hupd & Hs').
    rewrite Hstep in Hs'. injection Hs' as ->.
    apply events_in_bounds; [done|].
    destruct (advance_fields s) as (Hg & _).
    destruct (update_cases ROWS COLS UPDATE_FREQ (advance s))
      as [[_ Heq] | [_ (next & Hnext & Heq)]];
      rewrite Heq in Hupd; injection Hupd as <-; simpl.
    + by rewrite Hg.
    + intros p Hp. apply (apply_rules_scanned _ _ _ _ _ Hnext) in Hp.
      unfold in_bounds. lia.
Qed.

(** [run] only visits reachable states. *)
Lemma run_reachable (ROWS COLS UPDATE_FREQ : Z) (adm : Input → Prop)
    (frames : list (list Input)) (h h' : History) (s s' : State) :
  Forall (Forall adm) frames →
  reachable ROWS COLS UPDATE_FREQ adm h s →
  run ROWS COLS UPDATE_FREQ frames h s = Some (h', s') →
  reachable ROWS COLS UPDATE_FREQ adm h' s'.
Proof.
  revert h s. induction frames as [|events frames IH]; intros h s Hadm Hreach; simpl.
  - by intros [= <- <-].
  - apply Forall_cons in Hadm as [Hev Hadm].
    destruct (running s) eqn:Hrun; [|by intros [= <- <-]].
    destruct (main_step ROWS COLS UPDATE_FREQ events s) as [s1|] eqn:Hstep;
      simpl; [|done].
    apply IH; [done|]. by apply reach_frame.
Qed.

Lemma run_main_loop (ROWS COLS UPDATE_FREQ : Z) (frames : list (list Input))
    (h : History) (s : State) :
  snd <$> run ROWS COLS UPDATE_FREQ frames h s
  = main_loop ROWS COLS UPDATE_FREQ frames s.
Proof.
  revert h s. induction frames as [|events frames IH]; intros h s; simpl; [done|].
  destruct (running s); [|done].
  destruct (main_step ROWS COLS UPDATE_FREQ events s) as [s1|]; simpl; [|done].
  apply IH.
Qed.

(** * The claims *)


(** C2. On a grid with positive dimensions [count_live_neighbors] returns
    an integer between 0 and 8: the number of the eight offsets whose
    wrapped cell is live, where each wrapped cell has its column in
    [0, COLS) and its row in [0, ROWS).  On the 5x5 grid the cells
    (4,4), (4,0) and (0,4) are among the wrapped neighbours of (0,0), and
    each of them alone is counted once. *)
Theorem count_live_neighbors_wraps (ROWS COLS : Z) (g : gset (Z * Z))
    (position : Z * Z) :
  0 < ROWS → 0 < COLS →
  (∃ n, count_live_neighbors ROWS COLS g position = Some n ∧
        0 ≤ n ≤ 8 ∧
        n = Z.of_nat (length (filter (.∈ g)
                                (wrapped_neighbors ROWS COLS position)))) ∧
  Forall (in_bounds ROWS COLS) (wrapped_neighbors ROWS COLS position) ∧
  (∀ q, q ∈ [(4, 4); (4, 0); (0, 4)] →
     q ∈ wrapped_neighbors 5 5 (0, 0) ∧
     count_live_neighbors 5 5 {[q]} (0, 0) = Some 1).
Proof.
  intros HR HC. split; [|split].
  - eexists. split; [apply count_live_neighbors_eq; lia|]. split; [|done].
    pose proof (length_filter (.∈ g) (wrapped_neighbors ROWS COLS position)) as Hle.
    rewrite wrapped_neighbors_length in Hle. lia.
  - apply Forall_forall. intros q Hq.
    by apply (wrapped_neighbors_in_grid ROWS COLS position).
  - intros q Hq. rewrite !elem_of_cons in Hq.
    destruct Hq as [-> | [-> | [-> | Hq]]];
      [| | | by apply elem_of_nil in Hq];
      (split; [vm_compute; set_solver | vm_compute; reflexivity]).
Qed.

Lemma count_live_neighbors_wraps_witness :
  ∃ n, count_live_neighbors 5 5 {[ (4, 4); (1, 1); (2, 2) ]} (0, 0) = Some n
       ∧ 0 ≤ n ≤ 8.
Proof.
  destruct (count_live_neighbors_wraps 5 5 {[ (4, 4); (1, 1); (2, 2) ]} (0, 0))
    as [(n & Hn & Hrange & _) _]; [lia | lia |].
  exists n. split; [exact Hn | exact Hrange].
Defined.

(** C3, as the code has it.  A press of r or of p sets [iteration] to 0 and
    leaves [count], the frames since the last update, as it was; r keeps
    the mode and p pauses. *)
Theorem randomize_seed_keep_count (ROWS COLS : Z) (inp : Input) (s : State) :
  type (event inp) = KEYDOWN →
  key (event inp) = K_r ∨ key (event inp) = K_p →
  count (handle_event ROWS COLS inp s) = count s
  ∧ iteration (handle_event ROWS COLS inp s) = 0
  ∧ playing (handle_event ROWS COLS inp s)
    = (if decide (key (event inp) = K_r) then playing s else false).
Proof.
  intros Ht Hk. destruct inp as [[t k b] pos rd]. simpl in *. subst t.
  unfold handle_event. simpl.
  destruct Hk as [-> | ->]; simpl; done.
Qed.

Lemma randomize_seed_keep_count_witness :
  count (handle_event 10 10 (key_press K_r) (playing_empty 1 1)) = 1
  ∧ iteration (handle_event 10 10 (key_press K_r) (playing_empty 1 1)) = 0.
Proof.
  destruct (randomize_seed_keep_count 10 10 (key_press K_r) (playing_empty 1 1))
    as (Hc & Hi & _); [reflexivity | left; reflexivity |].
  split; [exact Hc | exact Hi].
Defined.

(** C3 as stated fails.  With the constants of the source, a press of
    space and then, one frame later, a press of r or of p leaves [count]
    at 1. *)
Lemma randomize_seed_count_not_reset :
  count <$> main_loop Source.ROWS Source.COLS Source.UPDATE_FREQ
              [[key_press K_SPACE]; [key_press K_r]] initial_state = Some 1
  ∧ count <$> main_loop Source.ROWS Source.COLS Source.UPDATE_FREQ
                [[key_press K_SPACE]; [key_press K_p]] initial_state = Some 1
  ∧ count (handle_event Source.ROWS Source.COLS (key_press K_r)
             (playing_empty 1 1)) ≠ 0
  ∧ count (handle_event Source.ROWS Source.COLS (key_press K_p)
             (playing_empty 1 1)) ≠ 0.
Proof. repeat split; try reflexivity; discriminate. Qed.

(** C4, as the code has it.  In every reachable state [iteration] is the
    number of frames that started in playing mode since the latest press of
    c, r or p (since the start when there was none): it goes up once per
    such frame, whether or not that frame computes a generation. *)
Theorem iteration_counts_playing_frames (ROWS COLS UPDATE_FREQ : Z)
    (adm : Input → Prop) (h : History) (s : State) :
  reachable ROWS COLS UPDATE_FREQ adm h s →
  iteration s = playing_ticks_since_reset h.
Proof. apply reachable_iteration. Qed.

Lemma iteration_counts_playing_frames_witness :
  reachable 10 10 2 (λ _, True)
    [(playing_empty 0 0, []); (initial_state, [key_press K_SPACE])]
    (playing_empty 1 1)
  ∧ iteration (playing_empty 1 1)
    = playing_ticks_since_reset
        [(playing_empty 0 0, []); (initial_state, [key_press K_SPACE])].
Proof.
  assert (reachable 10 10 2 (λ _, True)
            [(playing_empty 0 0, []); (initial_state, [key_press K_SPACE])]
            (playing_empty 1 1)) as Hreach.
  { apply reach_frame; [|reflexivity|constructor|reflexivity].
    apply reach_frame; [apply reach_init|reflexivity| |reflexivity].
    repeat constructor. }
  split; [exact Hreach|].
  exact (iteration_counts_playing_frames 10 10 2 _ _ _ Hreach).
Defined.

(** C4 as stated fails.  With the constants of the source (an update every
    2 frames), one frame after play was switched on [iteration] is 1 and no
    generation has been computed yet. *)
Lemma iteration_ahead_of_transitions :
  reachable Source.ROWS Source.COLS Source.UPDATE_FREQ (λ _, True)
    [(playing_empty 0 0, []); (initial_state, [key_press K_SPACE])]
    (playing_empty 1 1)
  ∧ iteration (playing_empty 1 1) = 1
  ∧ transitions_since_reset Source.UPDATE_FREQ
      [(playing_empty 0 0, []); (initial_state, [key_press K_SPACE])] = 0.
Proof.
  split; [|split; reflexivity].
  apply reach_frame; [|reflexivity|constructor|reflexivity].
  apply reach_frame; [apply reach_init|reflexivity| |reflexivity].
  repeat constructor.
Qed.



(** C6, as the code has it.  On a square grid, as long as every left click
    falls on a cell of the grid, every stored coordinate is in bounds in
    every reachable state; the generation step, both generators and such a
    click only store in-bounds cells.  The click stores
    [mouse_pos // TILE_SIZE] as it is, unwrapped and unchecked. *)
Theorem live_cells_in_bounds (ROWS COLS UPDATE_FREQ : Z)
    (h : History) (s : State) :
  ROWS = COLS →
  reachable ROWS COLS UPDATE_FREQ (click_in_grid ROWS COLS) h s →
  (∀ p, p ∈ grid_positions s → in_bounds ROWS COLS p)
  ∧ (∀ next p, apply_rules ROWS COLS (grid_positions s) = Some next →
               p ∈ next → in_bounds ROWS COLS p)
  ∧ (∀ rand p, p ∈ generate_random_grid_positions ROWS COLS rand →
               in_bounds ROWS COLS p)
  ∧ (∀ p, p ∈ generate_pattern ROWS COLS → in_bounds ROWS COLS p)
  ∧ (∀ pos p, in_bounds ROWS COLS (clicked_cell pos) →
              p ∈ handle_mouse_click pos (grid_positions s) →
              in_bounds ROWS COLS p).
Proof.
  intros Hsq Hreach.
  pose proof (reachable_in_bounds _ _ _ _ _ Hsq Hreach) as Hinv.
  split; [done|]. split; [|split; [|split]].
  - intros next p Hnext Hp.
    apply (apply_rules_scanned _ _ _ _ _ Hnext) in Hp.
    unfold in_bounds. lia.
  - intros rand p. apply generate_random_in_bounds.
  - apply generate_pattern_in_bounds.
  - intros pos p Hcell Hp.
    apply handle_mouse_click_elem_of in Hp as [[-> _] | [_ Hp]]; auto.
Qed.

Lemma live_cells_in_bounds_witness :
  reachable Source.ROWS Source.COLS Source.UPDATE_FREQ
    (click_in_grid Source.ROWS Source.COLS)
    [(initial_state, [left_click (600, 12)])]
    (paused_with {[ (120, 2) ]})
  ∧ in_bounds Source.ROWS Source.COLS (120, 2).
Proof.
  assert (reachable Source.ROWS Source.COLS Source.UPDATE_FREQ
            (click_in_grid Source.ROWS Source.COLS)
            [(initial_state, [left_click (600, 12)])]
            (paused_with {[ (120, 2) ]})) as Hreach.
  { apply reach_frame; [apply reach_init|reflexivity| |reflexivity].
    constructor; [|constructor]. intros _. vm_compute. intuition discriminate. }
  split; [exact Hreach|].
  destruct (live_cells_in_bounds Source.ROWS Source.COLS Source.UPDATE_FREQ
              _ _ eq_refl Hreach) as [Hinv _].
  apply Hinv. simpl. by apply elem_of_singleton.
Defined.

(** C6 as stated fails.  With the constants of the source, a left click
    handled while the pointer is at (1200, 600), just right of the window,
    stores the cell (240, 120), whose column is not below 240. *)
Lemma click_stores_out_of_bounds :
  reachable Source.ROWS Source.COLS Source.UPDATE_FREQ (λ _, True)
    [(initial_state, [left_click (1200, 600)])]
    (paused_with {[ (240, 120) ]})
  ∧ (240, 120) ∈ grid_positions (paused_with {[ (240, 120) ]})
  ∧ ¬ in_bounds Source.ROWS Source.COLS (240, 120).
Proof.
  split; [|split].
  - apply reach_frame; [apply reach_init|reflexivity| |reflexivity].
    repeat constructor.
  - simpl. by apply elem_of_singleton.
  - intros [[_ Hcol] _]. vm_compute in Hcol. discriminate.
Qed.

(** C7. On the 10x10 grid with threshold 1, from the paused state holding
    the vertical blinker: the frame that delivers the press of space leaves
    the set alone and switches to playing; the frame after it yields
    {(4,6),(5,6),(6,6)}, and the next one the vertical blinker again. *)
Theorem blinker_oscillates :
  main_step 10 10 1 [key_press K_SPACE] (paused_with blinker_v)
  = Some (handle_event 10 10 (key_press K_SPACE) (paused_with blinker_v))
  ∧ handle_event 10 10 (key_press K_SPACE) (paused_with blinker_v)
    = {| grid_positions := blinker_v; count := 0; playing := true;
         running := true; iteration := 0 |}
  ∧ grid_positions <$>
      main_loop 10 10 1 [[]]
        (handle_event 10 10 (key_press K_SPACE) (paused_with blinker_v))
    = Some {[ (4, 6); (5, 6); (6, 6) ]}
  ∧ grid_positions <$>
      main_loop 10 10 1 [[]; []]
        (handle_event 10 10 (key_press K_SPACE) (paused_with blinker_v))
    = Some {[ (5, 5); (5, 6); (5, 7) ]}.
Proof. repeat split; vm_compute; reflexivity. Qed.

(** C8. Two clicks at the same mouse position, with nothing in between,
    give back the set they started from; in particular the clicked cell is
    in the result exactly when it was in the original. *)
Theorem toggle_twice (mouse_pos : Z * Z) (g : gset (Z * Z)) :
  (clicked_cell mouse_pos ∈ handle_mouse_click mouse_pos
                              (handle_mouse_click mouse_pos g)
   ↔ clicked_cell mouse_pos ∈ g)
  ∧ handle_mouse_click mouse_pos (handle_mouse_click mouse_pos g) = g.
Proof.
  assert (∀ q, q ∈ handle_mouse_click mouse_pos (handle_mouse_click mouse_pos g)
               ↔ q ∈ g) as Hmem.
  { intros q. rewrite !handle_mouse_click_elem_of.
    destruct (decide (q = clicked_cell mouse_pos));
      destruct (decide (q ∈ g)); tauto. }
  split; [apply Hmem|]. apply leibniz_equiv, set_equiv. exact Hmem.
Qed.

(** C9, as the code has it.  The click is not validated: for every mouse
    position, in the window or not, [handle_mouse_click] flips the
    membership of the cell [mouse_pos // TILE_SIZE] and leaves every other
    cell as it was. *)
Theorem toggle_not_validated (mouse_pos : Z * Z) (g : gset (Z * Z)) :
  (clicked_cell mouse_pos ∈ handle_mouse_click mouse_pos g
   ↔ clicked_cell mouse_pos ∉ g)
  ∧ (∀ q, q ≠ clicked_cell mouse_pos →
          (q ∈ handle_mouse_click mouse_pos g ↔ q ∈ g)).
Proof.
  split; [|intros q Hne]; rewrite handle_mouse_click_elem_of; tauto.
Qed.

(** C9 as stated fails.  With the constants of the source, a left click
    handled while the pointer is at (600, 1200), just below the window, is
    not rejected: the out-of-bounds cell (120, 240) is added to the set. *)
Lemma out_of_bounds_toggle_applied :
  ¬ in_bounds Source.ROWS Source.COLS (clicked_cell (600, 1200))
  ∧ handle_mouse_click (600, 1200) ∅ = {[ (120, 240) ]}
  ∧ handle_event Source.ROWS Source.COLS (left_click (600, 1200)) initial_state
    = paused_with {[ (120, 240) ]}
  ∧ handle_event Source.ROWS Source.COLS (left_click (600, 1200)) initial_state
    ≠ initial_state.
Proof.
  split; [|split; [|split]].
  - intros [_ [_ Hrow]]. vm_compute in Hrow. discriminate.
  - vm_compute. reflexivity.
  - vm_compute. reflexivity.
  - vm_compute. discriminate.
Qed.

(** C10. An event that is not QUIT, not a KEYDOWN of space, c, r or p, and
    not a MOUSEBUTTONDOWN of button 1 leaves the state as it is: the set,
    [count], [playing], [running] and [iteration] are all returned
    unchanged. *)
Theorem unrecognized_event_noop (ROWS COLS : Z) (inp : Input) (s : State) :
  type (event inp) ≠ QUIT →
  ¬ (type (event inp) = KEYDOWN
     ∧ (key (event inp) = K_SPACE ∨ key (event inp) = K_c
        ∨ key (event inp) = K_r ∨ key (event inp) = K_p)) →
  ¬ (type (event inp) = MOUSEBUTTONDOWN ∧ button (event inp) = 1) →
  handle_event ROWS COLS inp s = s.
Proof.
  intros Hquit Hkey Hclick. destruct inp as [[t k b] pos rd].
  unfold handle_event. simpl in *.
  repeat (case_bool_decide; simpl); try done; tauto.
Qed.

Lemma unrecognized_event_noop_witness :
  handle_event Source.ROWS Source.COLS (mouse_motion (3, 4))
    (paused_with blinker_v) = paused_with blinker_v
  ∧ handle_event Source.ROWS Source.COLS (key_press 97)
      (paused_with blinker_v) = paused_with blinker_v.
Proof.
  split.
  - apply (unrecognized_event_noop Source.ROWS Source.COLS (mouse_motion (3, 4)));
      simpl; unfold QUIT, KEYDOWN, MOUSEBUTTONDOWN; intros; lia.
  - apply (unrecognized_event_noop Source.ROWS Source.COLS (key_press 97));
      simpl; unfold QUIT, KEYDOWN, MOUSEBUTTONDOWN, K_SPACE, K_c, K_r, K_p;
      intros; lia.
Defined.

(** * Further properties of the code *)

(** ** The engine *)

Lemma filter_agree {A : Type} (P Q : A → Prop)
    `{∀ x, Decision (P x)} `{∀ x, Decision (Q x)} (l : list A) :
  (∀ x, x ∈ l → (P x ↔ Q x)) → filter P l = filter Q l.
Proof.
  induction l as [|a l IH]; intros Hagree; [done|].
  rewrite !filter_cons.
  assert (filter P l = filter Q l) as -> by (apply IH; intros x Hx; apply Hagree; by right).
  pose proof (Hagree a ltac:(left)) as Ha.
  destruct (decide (P a)), (decide (Q a)); tauto.
Qed.

Lemma filter_none {A : Type} (P : A → Prop) `{∀ x, Decision (P x)}
    (l : list A) :
  (∀ x, x ∈ l → ¬ P x) → filter P l = [].
Proof.
  induction l as [|a l IH]; intros Hnone; [done|].
  rewrite filter_cons, decide_False by (apply Hnone; left).
  apply IH. intros x Hx. apply Hnone. by right.
Qed.

(** X1. [count_live_neighbors] raises exactly when a dimension is 0 (the
    division by zero of [%]); for all other dimensions, negative ones
    included, it returns a count between 0 and 8. *)
Theorem count_live_neighbors_error (ROWS COLS : Z) (g : gset (Z * Z))
    (position : Z * Z) :
  (count_live_neighbors ROWS COLS g position = None ↔ ROWS = 0 ∨ COLS = 0)
  ∧ (∀ n, count_live_neighbors ROWS COLS g position = Some n → 0 ≤ n ≤ 8).
Proof.
  split.
  - split.
    + intros Hnone.
      destruct (decide (ROWS = 0)) as [|HR]; [by left|].
      destruct (decide (COLS = 0)) as [|HC]; [by right|].
      by rewrite count_live_neighbors_eq in Hnone.
    + destruct position as [x y]. unfold count_live_neighbors, offsets. simpl.
      destruct (decide (COLS = 0)) as [->|HC]; [done|].
      intros [-> | ?]; [|done].
      by rewrite (py_mod_Some _ COLS).
  - intros n Hn.
    destruct (decide (ROWS = 0)) as [->|HR].
    { destruct position as [x y]. unfold count_live_neighbors, offsets in Hn.
      simpl in Hn. destruct (py_mod (x + -1) COLS); done. }
    destruct (decide (COLS = 0)) as [->|HC].
    { destruct position as [x y]. by unfold count_live_neighbors in Hn. }
    rewrite count_live_neighbors_eq in Hn by done. injection Hn as <-.
    pose proof (length_filter (.∈ g) (wrapped_neighbors ROWS COLS position)) as Hle.
    rewrite wrapped_neighbors_length in Hle. lia.
Qed.

(** X2. The empty set is a fixed point of the generation step, whatever
    the dimensions. *)
Theorem apply_rules_empty (ROWS COLS : Z) :
  apply_rules ROWS COLS ∅ = Some ∅.
Proof.
  destruct (apply_rules_elem_of ROWS COLS ∅) as (updated & -> & Hmem).
  f_equal. apply leibniz_equiv, set_equiv. intros p. rewrite Hmem. split.
  - intros [[Hrow Hcol] (n & Hn & Halive)].
    rewrite count_live_neighbors_eq in Hn by lia. injection Hn as <-.
    destruct Halive as [[Hp _] | [_ Hthree]]; [done|].
    rewrite filter_none in Hthree; [done|].
    intros q _. apply not_elem_of_empty.
  - intros Hp. by apply not_elem_of_empty in Hp.
Qed.

(** On a torus at least 3 wide, two offsets in [-1, 1] that wrap to the
    same coordinate are the same offset. *)
Lemma wrap_offset_inj (n a d d' : Z) :
  3 ≤ n → -1 ≤ d ≤ 1 → -1 ≤ d' ≤ 1 →
  (a + d) `mod` n = (a + d') `mod` n → d = d'.
Proof.
  intros Hn Hd Hd' Heq.
  assert (((a + d) - (a + d')) `mod` n = 0) as Hdiff.
  { rewrite Zminus_mod, Heq, Z.sub_diag. apply Z.mod_0_l. lia. }
  replace (a + d - (a + d')) with (d - d') in Hdiff by lia.
  destruct (decide (0 ≤ d - d')) as [Hpos | Hneg].
  - rewrite Z.mod_small in Hdiff by lia. lia.
  - assert ((d' - d) `mod` n = 0) as Hopp.
    { replace (d' - d) with (- (d - d')) by lia.
      apply Z.mod_opp_l_z; [lia | done]. }
    rewrite Z.mod_small in Hopp by lia. lia.
Qed.

Lemma offsets_bounds (off : Z * Z) :
  off ∈ offsets →
  -1 ≤ off.1 ≤ 1 ∧ -1 ≤ off.2 ≤ 1 ∧ off ≠ (0, 0).
Proof.
  unfold offsets. rewrite !elem_of_cons, elem_of_nil.
  intros Hoff. repeat destruct Hoff as [-> | Hoff]; try done;
    (split; [simpl; lia | split; [simpl; lia | done]]).
Qed.

Lemma offsets_NoDup : NoDup offsets.
Proof. apply (bool_decide_unpack _). vm_compute. exact I. Qed.

(** On a torus at least 3x3 the eight neighbours of a cell are eight
    different cells, none of them the cell itself. *)
Lemma wrapped_neighbors_NoDup (ROWS COLS : Z) (position : Z * Z) :
  3 ≤ ROWS → 3 ≤ COLS → NoDup (wrapped_neighbors ROWS COLS position).
Proof.
  intros HR HC. unfold wrapped_neighbors.
  apply NoDup_fmap_2_strong; [|apply offsets_NoDup].
  intros [dx dy] [dx' dy'] Hoff Hoff' Heq.
  apply offsets_bounds in Hoff as (Hx & Hy & _).
  apply offsets_bounds in Hoff' as (Hx' & Hy' & _).
  simpl in *. injection Heq as Heqx Heqy.
  f_equal; [by apply (wrap_offset_inj COLS position.1)
           | by apply (wrap_offset_inj ROWS position.2)].
Qed.

Lemma wrapped_neighbors_not_self (ROWS COLS : Z) (position : Z * Z) :
  3 ≤ ROWS → 3 ≤ COLS → position ∉ wrapped_neighbors ROWS COLS position.
Proof.
  intros HR HC. unfold wrapped_neighbors.
  rewrite list_elem_of_fmap. intros ([dx dy] & Heq & Hoff).
  apply offsets_bounds in Hoff as (Hx & Hy & Hne). simpl in *.
  destruct position as [x y]. simpl in *. injection Heq as Heqx Heqy.
  assert (0 ≤ x < COLS) as Hxb by (rewrite Heqx; apply Z.mod_pos_bound; lia).
  assert (0 ≤ y < ROWS) as Hyb by (rewrite Heqy; apply Z.mod_pos_bound; lia).
  assert (dx = 0).
  { apply (wrap_offset_inj COLS x); [lia | lia | lia |].
    rewrite <- Heqx, Z.add_0_r. by rewrite Z.mod_small. }
  assert (dy = 0).
  { apply (wrap_offset_inj ROWS y); [lia | lia | lia |].
    rewrite <- Heqy, Z.add_0_r. by rewrite Z.mod_small. }
  apply Hne. congruence.
Qed.

(** Different cells of a list that are all in a set are no more than the
    set has elements. *)
Lemma count_le_size (l : list (Z * Z)) (g g' : gset (Z * Z)) :
  NoDup l → (∀ q, q ∈ l → q ∈ g → q ∈ g') →
  (length (filter (.∈ g) l) ≤ size g')%nat.
Proof.
  intros Hnd Hsub.
  rewrite <- (size_list_to_set (C := gset (Z * Z)) (filter (.∈ g) l))
    by by apply NoDup_filter.
  apply subseteq_size. intros q. rewrite elem_of_list_to_set, list_elem_of_filter.
  intros [Hq Hl]. by apply Hsub.
Qed.

(** X3. On a torus of at least 3 rows and 3 columns, a population of at
    most two cells dies out in one generation: no cell survives for want
    of two neighbours and none is born for want of three.  The single
    isolated cell is the case of size 1. *)
Theorem apply_rules_sparse_dies (ROWS COLS : Z) (g : gset (Z * Z)) :
  3 ≤ ROWS → 3 ≤ COLS → (size g ≤ 2)%nat →
  apply_rules ROWS COLS g = Some ∅.
Proof.
  intros HR HC Hsize.
  destruct (apply_rules_elem_of ROWS COLS g) as (updated & -> & Hmem).
  f_equal. apply leibniz_equiv, set_equiv. intros p. rewrite Hmem. split.
  - intros [_ (n & Hn & Halive)].
    rewrite count_live_neighbors_eq in Hn by lia. injection Hn as <-.
    pose proof (wrapped_neighbors_NoDup ROWS COLS p HR HC) as Hnd.
    destruct Halive as [[Hp Hcount] | [_ Hthree]].
    + assert (length (filter (.∈ g) (wrapped_neighbors ROWS COLS p))
              ≤ size (g ∖ {[p]}))%nat as Hle.
      { apply count_le_size; [done|]. intros q Hq Hqg.
        apply elem_of_difference. split; [done|].
        rewrite elem_of_singleton. intros ->.
        by apply (wrapped_neighbors_not_self ROWS COLS p). }
      rewrite size_difference, size_singleton in Hle
        by by apply singleton_subseteq_l.
      lia.
    + pose proof (count_le_size _ g g Hnd (λ _ _ Hq, Hq)). lia.
  - intros Hp. by apply not_elem_of_empty in Hp.
Qed.

Lemma apply_rules_sparse_dies_witness :
  apply_rules 10 10 {[ (5, 5) ]} = Some ∅
  ∧ apply_rules 10 10 {[ (5, 5); (5, 6) ]} = Some ∅.
Proof.
  split.
  - apply apply_rules_sparse_dies; [lia | lia |].
    rewrite size_singleton. lia.
  - apply apply_rules_sparse_dies; [lia | lia |].
    rewrite size_union, !size_singleton; [lia|].
    apply disjoint_singleton_l. rewrite elem_of_singleton. discriminate.
Defined.

(** X4. The generation step reads the live set only at cells of the grid
    and at the pairs it scans: two sets that agree there have the same
    next generation.  Coordinates stored outside (by a click beyond the
    window, say) change nothing. *)
Theorem apply_rules_agree (ROWS COLS : Z) (g g' : gset (Z * Z)) :
  0 < ROWS → 0 < COLS →
  (∀ p, in_bounds ROWS COLS p ∨ scanned ROWS COLS p → (p ∈ g ↔ p ∈ g')) →
  apply_rules ROWS COLS g = apply_rules ROWS COLS g'.
Proof.
  intros HR HC Hagree.
  destruct (apply_rules_elem_of ROWS COLS g) as (u & -> & Hu).
  destruct (apply_rules_elem_of ROWS COLS g') as (u' & -> & Hu').
  f_equal. apply leibniz_equiv, set_equiv. intros p. rewrite Hu, Hu'.
  assert (∀ q, filter (.∈ g) (wrapped_neighbors ROWS COLS q)
               = filter (.∈ g') (wrapped_neighbors ROWS COLS q)) as Hcount.
  { intros q. apply filter_agree. intros r Hr. apply Hagree. left.
    by apply (wrapped_neighbors_in_grid ROWS COLS q). }
  rewrite !count_live_neighbors_eq by lia. rewrite Hcount.
  split; intros [Hscan (n & Hn & Halive)];
    (split; [done|]; exists n; split; [done|]);
    unfold next_alive in *;
    pose proof (Hagree p (or_intror Hscan)); tauto.
Qed.

Lemma apply_rules_agree_witness :
  apply_rules 10 10 {[ (5, 5); (5, 6); (5, 7); (10, 3) ]}
  = apply_rules 10 10 {[ (5, 5); (5, 6); (5, 7) ]}.
Proof.
  apply apply_rules_agree; [lia | lia |].
  intros [x y] Hp. rewrite !elem_of_union, !elem_of_singleton.
  split; [|tauto].
  intros [Hin | Heq]; [done|]. injection Heq as -> ->.
  unfold in_bounds, scanned in Hp. simpl in Hp. lia.
Defined.

(** X5. On a square grid the next generation is that of the in-bounds part
    of the set: out-of-bounds coordinates are neither counted nor kept. *)
Theorem apply_rules_drops_out_of_bounds (N : Z) (g : gset (Z * Z)) :
  0 < N →
  apply_rules N N g = apply_rules N N (filter (in_bounds N N) g)
  ∧ (∀ next p, apply_rules N N g = Some next → p ∈ next → in_bounds N N p).
Proof.
  intros HN. split.
  - apply apply_rules_agree; [done | done |].
    intros p Hp. rewrite elem_of_filter.
    assert (in_bounds N N p) by (unfold in_bounds, scanned in *; lia).
    tauto.
  - intros next p Hnext Hp.
    apply (apply_rules_scanned _ _ _ _ _ Hnext) in Hp.
    unfold in_bounds. lia.
Qed.

Lemma apply_rules_drops_out_of_bounds_witness :
  apply_rules 10 10 {[ (5, 5); (-1, 3) ]}
  = apply_rules 10 10 (filter (in_bounds 10 10) {[ (5, 5); (-1, 3) ]}).
Proof.
  destruct (apply_rules_drops_out_of_bounds 10 {[ (5, 5); (-1, 3) ]})
    as [Heq _]; [lia|]. exact Heq.
Defined.

(** ** The generators, exactly *)

(** A loop whose body cannot raise and only ever adds to a set. *)
Lemma for_loop_elem_of {A K : Type} `{Countable K}
    (xs : list A) (body : A → gset K → gset K) (added : A → K → Prop) :
  (∀ a s p, a ∈ xs → (p ∈ body a s ↔ p ∈ s ∨ added a p)) →
  ∀ s0 p, p ∈ for_loop xs body s0 ↔ p ∈ s0 ∨ ∃ a, a ∈ xs ∧ added a p.
Proof.
  unfold for_loop.
  induction xs as [|x xs IH]; intros Hbody s0 p; simpl.
  - split; [auto|]. intros [Hp | (a & Ha & _)]; [done|].
    by apply elem_of_nil in Ha.
  - rewrite IH by (intros a s q Ha; apply Hbody; by right).
    rewrite Hbody by left. split.
    + intros [[Hp | Hx] | (a & Ha & Hadd)]; [by left | |].
      * right. exists x. split; [left | done].
      * right. exists a. split; [by right | done].
    + intros [Hp | (a & Ha & Hadd)]; [by left; left|].
      apply elem_of_cons in Ha as [-> | Ha]; [by left; right|].
      right. by exists a.
Qed.

(** One row of [generate_random_grid_positions]: the draws are consumed one
    per cell, in the order of the cells. *)
Lemma random_row (rand : nat → Q) (y : Z) (xs : list Z) (d : nat)
    (acc : gset (Z * Z)) :
  let r := for_loop xs
             (λ x '(draws, random_grid_positions),
                if Qlt_le_dec (rand draws) RANDOM_DENSITY
                then let random_pos := (x, y) in
                     (S draws, {[random_pos]} ∪ random_grid_positions)
                else (S draws, random_grid_positions))
             (d, acc) in
  r.1 = (d + length xs)%nat
  ∧ ∀ p, p ∈ r.2 ↔
         p ∈ acc ∨ ∃ i x, xs !! i = Some x ∧ p = (x, y)
                          ∧ (rand (d + i)%nat < RANDOM_DENSITY)%Q.
Proof.
  unfold for_loop. revert d acc.
  induction xs as [|x xs IH]; intros d acc; simpl.
  - split; [lia|]. intros p. split; [auto|].
    intros [Hp | (i & x & Hi & _)]; [done | done].
  - destruct (Qlt_le_dec (rand d) RANDOM_DENSITY) as [Hlt | Hge].
    + destruct (IH (S d) ({[(x, y)]} ∪ acc)) as [Hd Hmem].
      split; [simpl in *; lia|]. intros p. rewrite Hmem.
      rewrite elem_of_union, elem_of_singleton. split.
      * intros [[-> | Hp] | (i & x' & Hi & -> & Hr)].
        -- right. exists 0%nat, x. by rewrite Nat.add_0_r.
        -- by left.
        -- right. exists (S i), x'. split; [done|]. split; [done|].
           by replace (d + S i)%nat with (S d + i)%nat by lia.
      * intros [Hp | (i & x' & Hi & -> & Hr)]; [by left; right|].
        destruct i as [|i]; simpl in Hi.
        -- injection Hi as ->. by left; left.
        -- right. exists i, x'. split; [done|]. split; [done|].
           by replace (S d + i)%nat with (d + S i)%nat by lia.
    + destruct (IH (S d) acc) as [Hd Hmem].
      split; [simpl in *; lia|]. intros p. rewrite Hmem. split.
      * intros [Hp | (i & x' & Hi & -> & Hr)]; [by left|].
        right. exists (S i), x'. split; [done|]. split; [done|].
        by replace (d + S i)%nat with (S d + i)%nat by lia.
      * intros [Hp | (i & x' & Hi & -> & Hr)]; [by left|].
        destruct i as [|i]; simpl in Hi.
        -- injection Hi as ->. rewrite Nat.add_0_r in Hr.
           exfalso. by apply (Qlt_not_le _ _ Hr).
        -- right. exists i, x'. split; [done|]. split; [done|].
           by replace (S d + i)%nat with (d + S i)%nat by lia.
Qed.

(** The rows one after the other. *)
Lemma random_rows (rand : nat → Q) (xs ys : list Z) (d : nat)
    (acc : gset (Z * Z)) :
  let r := for_loop ys
             (λ y, for_loop xs
                (λ x '(draws, random_grid_positions),
                   if Qlt_le_dec (rand draws) RANDOM_DENSITY
                   then let random_pos := (x, y) in
                        (S draws, {[random_pos]} ∪ random_grid_positions)
                   else (S draws, random_grid_positions)))
             (d, acc) in
  ∀ p, p ∈ r.2 ↔
       p ∈ acc ∨ ∃ j y i x, ys !! j = Some y ∧ xs !! i = Some x ∧ p = (x, y)
                    ∧ (rand (d + j * length xs + i)%nat < RANDOM_DENSITY)%Q.
Proof.
  revert d acc.
  induction ys as [|y ys IH]; intros d acc r p.
  - subst r. simpl. split; [auto|].
    intros [Hp | (j & y & i & x & Hj & _)]; [done | done].
  - subst r. unfold for_loop at 1. simpl. fold (@for_loop Z (nat * gset (Z * Z))).
    pose proof (random_row rand y xs d acc) as Hrow. simpl in Hrow.
    destruct (for_loop xs _ (d, acc)) as [d1 acc1] eqn:Hrun in Hrow |- *.
    simpl in Hrow. destruct Hrow as [-> Hacc1].
    fold (for_loop ys
            (λ y0, for_loop xs
               (λ x '(draws, random_grid_positions),
                  if Qlt_le_dec (rand draws) RANDOM_DENSITY
                  then let random_pos := (x, y0) in
                       (S draws, {[random_pos]} ∪ random_grid_positions)
                  else (S draws, random_grid_positions)))
            ((d + length xs)%nat, acc1)).
    rewrite IH, Hacc1. split.
    + intros [[Hp | (i & x & Hi & -> & Hr)] | (j & y' & i & x & Hj & Hi & -> & Hr)].
      * by left.
      * right. exists 0%nat, y, i, x. simpl. by rewrite Nat.add_0_r.
      * right. exists (S j), y', i, x. split; [done|]. split; [done|].
        split; [done|].
        by replace (d + S j * length xs + i)%nat
          with (d + length xs + j * length xs + i)%nat by lia.
    + intros [Hp | (j & y' & i & x & Hj & Hi & -> & Hr)]; [by left; left|].
      destruct j as [|j]; simpl in Hj.
      * injection Hj as ->. left. right. exists i, x.
        split; [done|]. split; [done|]. by rewrite Nat.add_0_r in Hr.
      * right. exists j, y', i, x. split; [done|]. split; [done|].
        split; [done|].
        by replace (d + length xs + j * length xs + i)%nat
          with (d + S j * length xs + i)%nat by lia.
Qed.

(** X6. [generate_random_grid_positions] visits the cells row by row and
    draws once per cell: the cell [(x, y)] is in the result exactly when it
    is a cell of the grid and draw number [y * COLS + x] is below the
    density. *)
Theorem generate_random_exact (ROWS COLS : Z) (rand : nat → Q) (x y : Z) :
  (x, y) ∈ generate_random_grid_positions ROWS COLS rand ↔
  (0 ≤ x < COLS) ∧ (0 ≤ y < ROWS)
  ∧ (rand (Z.to_nat (y * COLS + x)) < RANDOM_DENSITY)%Q.
Proof.
  unfold generate_random_grid_positions.
  pose proof (random_rows rand (range 0 COLS) (range 0 ROWS) 0 ∅) as Hmem.
  simpl in Hmem. rewrite Hmem. clear Hmem.
  unfold range. rewrite length_seqZ. split.
  - intros [Hp | (j & y' & i & x' & Hj & Hi & Heq & Hr)];
      [by apply not_elem_of_empty in Hp|].
    apply lookup_seqZ in Hj as [-> Hj]. apply lookup_seqZ in Hi as [-> Hi].
    injection Heq as -> ->.
    split; [lia|]. split; [lia|].
    assert (Z.to_nat ((0 + Z.of_nat j) * COLS + (0 + Z.of_nat i))
            = (j * Z.to_nat (COLS - 0) + i)%nat) as ->; [|done].
    rewrite Z2Nat.inj_add, Z2Nat.inj_mul by nia.
    rewrite !Z.add_0_l, !Nat2Z.id, Z.sub_0_r. done.
  - intros (Hx & Hy & Hr). right.
    exists (Z.to_nat y), y, (Z.to_nat x), x.
    split; [apply lookup_seqZ; lia|]. split; [apply lookup_seqZ; lia|].
    split; [done|].
    assert ((Z.to_nat y * Z.to_nat (COLS - 0) + Z.to_nat x)%nat
            = Z.to_nat (y * COLS + x)) as ->; [|done].
    rewrite Z2Nat.inj_add, Z2Nat.inj_mul, Z.sub_0_r by nia. done.
Qed.

(** X7. The two extremes of the random generator: when no draw is below
    the density the set is empty, and when every draw is below it the set
    is the whole grid. *)
Theorem generate_random_extremes (ROWS COLS : Z) (rand : nat → Q) :
  ((∀ k, (RANDOM_DENSITY <= rand k)%Q) →
   generate_random_grid_positions ROWS COLS rand = ∅)
  ∧ ((∀ k, (rand k < RANDOM_DENSITY)%Q) →
     ∀ p, p ∈ generate_random_grid_positions ROWS COLS rand
          ↔ in_bounds ROWS COLS p).
Proof.
  split.
  - intros Hnone. apply leibniz_equiv, set_equiv. intros [x y].
    rewrite generate_random_exact. split.
    + intros (_ & _ & Hr). exfalso. by apply (Qlt_not_le _ _ Hr).
    + intros Hp. by apply not_elem_of_empty in Hp.
  - intros Hall [x y]. rewrite generate_random_exact.
    unfold in_bounds. simpl. specialize (Hall (Z.to_nat (y * COLS + x))).
    tauto.
Qed.

Lemma generate_random_extremes_witness :
  generate_random_grid_positions 10 10 (λ _, 1%Q) = ∅
  ∧ (3, 4) ∈ generate_random_grid_positions 10 10 (λ _, 0%Q).
Proof.
  split.
  - apply (generate_random_extremes 10 10 (λ _, 1%Q)). intros _. discriminate.
  - apply (generate_random_extremes 10 10 (λ _, 0%Q)); [reflexivity|].
    unfold in_bounds. simpl. lia.
Defined.

Lemma elem_of_add_if (test : bool) (p q : Z * Z) (acc : gset (Z * Z)) :
  q ∈ add_if test p acc ↔ q ∈ acc ∨ (test = true ∧ q = p).
Proof.
  unfold add_if. destruct test.
  - rewrite elem_of_union, elem_of_singleton. tauto.
  - split; [auto|]. by intros [Hq | [? _]].
Qed.

(** X8. [generate_pattern] holds exactly the cells of the grid that pass at
    least one of its five tests: the cross, the two diagonals (the second
    one is [x = COLS - y]), the ring, the parabola and the quartic. *)
Theorem generate_pattern_exact (ROWS COLS : Z) (x y : Z) :
  (x, y) ∈ generate_pattern ROWS COLS ↔
  (0 ≤ x < COLS) ∧ (0 ≤ y < ROWS)
  ∧ ((x = COLS `div` 2 ∨ y = ROWS `div` 2)
     ∨ (x = y ∨ x = COLS - y)
     ∨ (((ROWS - 10) `div` 2) ^ 2
          < (x - COLS `div` 2) ^ 2 + (y - ROWS `div` 2) ^ 2
        ∧ (x - COLS `div` 2) ^ 2 + (y - ROWS `div` 2) ^ 2 < (ROWS `div` 2) ^ 2)
     ∨ y = ROWS `div` 2 - (x - COLS `div` 2) ^ 2 `div` 100
     ∨ y = ROWS `div` 2 - (x - COLS `div` 2) ^ 4 `div` 1000000).
Proof.
  unfold generate_pattern.
  rewrite (for_loop_elem_of (range 0 ROWS) _
    (λ y' p, ∃ x', x' ∈ range 0 COLS ∧ p = (x', y') ∧
       ((x' = COLS `div` 2 ∨ y' = ROWS `div` 2)
        ∨ (x' = y' ∨ x' = COLS - y')
        ∨ (((ROWS - 10) `div` 2) ^ 2
             < (x' - COLS `div` 2) ^ 2 + (y' - ROWS `div` 2) ^ 2
           ∧ (x' - COLS `div` 2) ^ 2 + (y' - ROWS `div` 2) ^ 2
             < (ROWS `div` 2) ^ 2)
        ∨ y' = ROWS `div` 2 - (x' - COLS `div` 2) ^ 2 `div` 100
        ∨ y' = ROWS `div` 2 - (x' - COLS `div` 2) ^ 4 `div` 1000000))).
  - split.
    + intros [Hp | (y' & Hy & x' & Hx & Heq & Htests)];
        [by apply not_elem_of_empty in Hp|].
      injection Heq as -> ->. apply elem_of_range in Hx, Hy. done.
    + intros (Hx & Hy & Htests). right.
      exists y. split; [by apply elem_of_range|].
      exists x. split; [by apply elem_of_range|]. done.
  - intros y' s p _.
    apply (for_loop_elem_of (range 0 COLS) (generate_pattern_cell ROWS COLS y')
      (λ x' p, p = (x', y') ∧
         ((x' = COLS `div` 2 ∨ y' = ROWS `div` 2)
          ∨ (x' = y' ∨ x' = COLS - y')
          ∨ (((ROWS - 10) `div` 2) ^ 2
               < (x' - COLS `div` 2) ^ 2 + (y' - ROWS `div` 2) ^ 2
             ∧ (x' - COLS `div` 2) ^ 2 + (y' - ROWS `div` 2) ^ 2
               < (ROWS `div` 2) ^ 2)
          ∨ y' = ROWS `div` 2 - (x' - COLS `div` 2) ^ 2 `div` 100
          ∨ y' = ROWS `div` 2 - (x' - COLS `div` 2) ^ 4 `div` 1000000))).
    intros x' s' q _. unfold generate_pattern_cell.
    rewrite !elem_of_add_if.
    rewrite !andb_true_iff, !orb_true_iff, !bool_decide_eq_true.
    tauto.
Qed.

(** ** The click and the picture *)

(** X9. A click changes the number of live cells by exactly one: one less
    when the clicked cell was alive, one more when it was not. *)
Theorem handle_mouse_click_size (mouse_pos : Z * Z) (g : gset (Z * Z)) :
  size (handle_mouse_click mouse_pos g)
  = if decide (clicked_cell mouse_pos ∈ g)
    then (size g - 1)%nat else S (size g).
Proof.
  unfold handle_mouse_click. fold (clicked_cell mouse_pos).
  destruct (decide (clicked_cell mouse_pos ∈ g)) as [Hin | Hout].
  - rewrite size_difference by by apply singleton_subseteq_l.
    by rewrite size_singleton.
  - rewrite size_union by by apply disjoint_singleton_l.
    by rewrite size_singleton.
Qed.

(** X10. Clicks commute: two clicks give the same set in either order. *)
Theorem handle_mouse_click_comm (pos1 pos2 : Z * Z) (g : gset (Z * Z)) :
  handle_mouse_click pos1 (handle_mouse_click pos2 g)
  = handle_mouse_click pos2 (handle_mouse_click pos1 g).
Proof.
  apply leibniz_equiv, set_equiv. intros q.
  rewrite !handle_mouse_click_elem_of.
  destruct (decide (q = clicked_cell pos1)), (decide (q = clicked_cell pos2)),
    (decide (q ∈ g)); tauto.
Qed.

(** The pixels of a tile are those that click on its cell. *)
Lemma clicked_cell_tile (pixel cell : Z * Z) :
  clicked_cell pixel = cell ↔
  rect_covers (cell.1 * TILE_SIZE, cell.2 * TILE_SIZE, TILE_SIZE, TILE_SIZE) pixel.
Proof.
  destruct pixel as [px py], cell as [gx gy].
  unfold clicked_cell, rect_covers, TILE_SIZE. simpl.
  pose proof (Z.div_mod px 5). pose proof (Z.div_mod py 5).
  pose proof (Z.mod_pos_bound px 5). pose proof (Z.mod_pos_bound py 5).
  split.
  - intros [= <- <-]. lia.
  - intros [Hx Hy]. f_equal; lia.
Qed.

(** X11. What is drawn is what a click hits: a pixel lies in one of the
    squares [draw_positions] fills exactly when the cell a click at that
    pixel toggles is alive. *)
Theorem draw_positions_clicked (g : gset (Z * Z)) (pixel : Z * Z) :
  (∃ color rect, DrawRect color rect ∈ draw_positions g ∧ rect_covers rect pixel)
  ↔ clicked_cell pixel ∈ g.
Proof.
  unfold draw_positions. split.
  - intros (color & rect & Hdraw & Hcover).
    apply list_elem_of_fmap in Hdraw as ([gx gy] & Heq & Hcell).
    injection Heq as -> ->. apply elem_of_elements in Hcell.
    apply (clicked_cell_tile pixel (gx, gy)) in Hcover. by rewrite Hcover.
  - intros Hcell. destruct (clicked_cell pixel) as [gx gy] eqn:Hclick.
    exists GREEN, (gx * TILE_SIZE, gy * TILE_SIZE, TILE_SIZE, TILE_SIZE).
    split.
    + apply list_elem_of_fmap. exists (gx, gy). split; [done|].
      by apply elem_of_elements.
    + by apply (clicked_cell_tile pixel (gx, gy)).
Qed.

(** X12. [draw_positions] draws exactly one square per live cell and
    nothing else: every live cell's square is among the calls, every call
    is the square of a live cell, no call is made twice, and squares of
    different cells share no pixel. *)
Theorem draw_positions_squares (g : gset (Z * Z)) :
  length (draw_positions g) = size g
  ∧ NoDup (draw_positions g)
  ∧ (∀ d, d ∈ draw_positions g ↔
       ∃ cell, cell ∈ g ∧
         d = DrawRect GREEN (cell.1 * TILE_SIZE, cell.2 * TILE_SIZE,
                             TILE_SIZE, TILE_SIZE))
  ∧ (∀ cell cell' pixel,
       rect_covers (cell.1 * TILE_SIZE, cell.2 * TILE_SIZE, TILE_SIZE, TILE_SIZE)
                   pixel →
       rect_covers (cell'.1 * TILE_SIZE, cell'.2 * TILE_SIZE, TILE_SIZE, TILE_SIZE)
                   pixel →
       cell = cell').
Proof.
  split; [|split; [|split]].
  - unfold draw_positions. by rewrite length_map.
  - unfold draw_positions.
    apply NoDup_fmap_2_strong; [|apply NoDup_elements].
    intros [gx gy] [gx' gy'] _ _ Heq. injection Heq as Hx Hy.
    unfold TILE_SIZE in *. f_equal; lia.
  - intros d. unfold draw_positions. rewrite list_elem_of_fmap. split.
    + intros ([gx gy] & -> & Hcell).
      exists (gx, gy). split; [by apply elem_of_elements|done].
    + intros ([gx gy] & Hcell & ->).
      exists (gx, gy). split; [done|]. by apply elem_of_elements.
  - intros cell cell' pixel Hc Hc'.
    apply clicked_cell_tile in Hc, Hc'. congruence.
Qed.

(** X13. The grid lines and the squares fit together: [draw_grid] makes one
    call per row and one per column, and for every cell of the grid the
    horizontal and the vertical line through the top-left corner of its
    square are among them. *)
Theorem draw_grid_aligned (ROWS COLS : Z) :
  length (draw_grid ROWS COLS) = (Z.to_nat ROWS + Z.to_nat COLS)%nat
  ∧ (∀ cell, in_bounds ROWS COLS cell →
       DrawLine BLACK (0, cell.2 * TILE_SIZE) (SCREEN_WIDTH, cell.2 * TILE_SIZE)
                GRID_THICKNESS ∈ draw_grid ROWS COLS
       ∧ DrawLine BLACK (cell.1 * TILE_SIZE, 0) (cell.1 * TILE_SIZE, SCREEN_HEIGHT)
                  GRID_THICKNESS ∈ draw_grid ROWS COLS).
Proof.
  unfold draw_grid, range. split.
  - rewrite length_app, !length_map, !length_seqZ. lia.
  - intros [gx gy] [Hx Hy]. simpl in *. rewrite !elem_of_app, !list_elem_of_fmap.
    split.
    + left. exists gy. split; [done|]. apply elem_of_seqZ. lia.
    + right. exists gx. split; [done|]. apply elem_of_seqZ. lia.
Qed.

(** ** The handler and the loop *)

(** X14. Two presses of space in a row bring every state back: the mode is
    flipped twice and nothing else is touched. *)
Theorem space_twice (ROWS COLS : Z) (inp inp' : Input) (s : State) :
  type (event inp) = KEYDOWN → key (event inp) = K_SPACE →
  type (event inp') = KEYDOWN → key (event inp') = K_SPACE →
  playing (handle_event ROWS COLS inp s) = negb (playing s)
  ∧ handle_event ROWS COLS inp' (handle_event ROWS COLS inp s) = s.
Proof.
  intros Ht Hk Ht' Hk'.
  destruct inp as [[t k b] pos rd], inp' as [[t' k' b'] pos' rd'].
  simpl in *. subst. unfold handle_event. simpl.
  split; [done|]. destruct s as [g c pl rn it]. simpl.
  by rewrite negb_involutive.
Qed.

Lemma space_twice_witness :
  handle_event 10 10 (key_press K_SPACE)
    (handle_event 10 10 (key_press K_SPACE) (paused_with blinker_v))
  = paused_with blinker_v.
Proof.
  apply (space_twice 10 10 (key_press K_SPACE) (key_press K_SPACE));
    reflexivity.
Defined.

Lemma for_loop_app {A S : Type} (xs ys : list A) (body : A → S → S) (s : S) :
  for_loop (xs ++ ys) body s = for_loop ys body (for_loop xs body s).
Proof. unfold for_loop. apply foldl_app. Qed.

(** X15. A press of c that comes last in a frame wins over everything the
    frame did before it, the generation step and the earlier events
    included: the frame ends with an empty set, paused, and both counters
    at 0.  Only [running] is what the earlier events made it. *)
Theorem clear_last_wins (ROWS COLS UPDATE_FREQ : Z) (events : list Input)
    (inp : Input) (s : State) :
  type (event inp) = KEYDOWN → key (event inp) = K_c →
  ∃ s', main_step ROWS COLS UPDATE_FREQ events s = Some s' ∧
    main_step ROWS COLS UPDATE_FREQ (events ++ [inp]) s
    = Some {| grid_positions := ∅; count := 0; playing := false;
              running := running s'; iteration := 0 |}.
Proof.
  intros Ht Hk.
  destruct (main_step_total ROWS COLS UPDATE_FREQ events s) as (s1 & Hupd & Hs').
  destruct (main_step_total ROWS COLS UPDATE_FREQ (events ++ [inp]) s)
    as (s1' & Hupd' & Hs'').
  rewrite Hupd in Hupd'. injection Hupd' as <-.
  eexists. split; [exact Hs'|]. rewrite Hs'', for_loop_app. f_equal.
  destruct inp as [[t k b] pos rd]. simpl in *. subst.
  reflexivity.
Qed.

Lemma clear_last_wins_witness :
  main_step 10 10 1 [left_click (27, 12); key_press K_c]
    (playing_empty 0 7)
  = Some (paused_with ∅).
Proof.
  destruct (clear_last_wins 10 10 1 [left_click (27, 12)] (key_press K_c)
              (playing_empty 0 7)) as (s' & Hs' & Hstep);
    [reflexivity | reflexivity |].
  simpl app in Hstep. rewrite Hstep.
  vm_compute in Hs'. injection Hs' as <-. reflexivity.
Defined.

Lemma handle_event_running (ROWS COLS : Z) (inp : Input) (s : State) :
  running (handle_event ROWS COLS inp s)
  = running s && negb (is_quit (event inp)).
Proof.
  destruct inp as [[t k b] pos rd]. unfold handle_event, is_quit. simpl.
  repeat (case_bool_decide; simpl); by rewrite ?andb_true_r, ?andb_false_r.
Qed.

(** X16. No event switches [running] back on: after the events of a frame
    it is true exactly when it was true before and none of them was a
    QUIT.  A QUIT does not cut the frame short, the events after it are
    handled like the others. *)
Theorem events_running (ROWS COLS : Z) (events : list Input) (s : State) :
  running (for_loop events (handle_event ROWS COLS) s)
  = running s && negb (has_quit events).
Proof.
  unfold for_loop, has_quit. revert s.
  induction events as [|inp events IH]; intros s; simpl.
  - by rewrite andb_true_r.
  - rewrite IH, handle_event_running, negb_orb. by rewrite andb_assoc.
Qed.

(** X17. The loop never raises, and a frame that receives a QUIT is the
    last one: from a running state, whatever frames follow it, the loop
    ends in the state that frame produced, with [running] false. *)
Theorem quit_ends_loop (ROWS COLS UPDATE_FREQ : Z) (events : list Input)
    (rest : list (list Input)) (s : State) :
  running s = true → has_quit events = true →
  ∃ s', main_step ROWS COLS UPDATE_FREQ events s = Some s'
        ∧ running s' = false
        ∧ main_loop ROWS COLS UPDATE_FREQ (events :: rest) s = Some s'.
Proof.
  intros Hrun Hquit.
  destruct (main_step_total ROWS COLS UPDATE_FREQ events s) as (s1 & Hupd & Hs').
  eexists. split; [exact Hs'|].
  assert (running (for_loop events (handle_event ROWS COLS) s1) = false) as Hoff.
  { rewrite events_running, Hquit. apply andb_false_r. }
  split; [done|].
  simpl. rewrite Hrun, Hs'. simpl. destruct rest; simpl; [done|].
  by rewrite Hoff.
Qed.

Lemma quit_ends_loop_witness :
  main_loop 10 10 2
    [[{| event := {| type := QUIT; key := 0; button := 0 |};
         mouse_pos := (0, 0); rand := λ _, 0%Q |}];
     [key_press K_SPACE]; []]
    initial_state
  = Some {| grid_positions := ∅; count := 0; playing := false;
            running := false; iteration := 0 |}.
Proof.
  destruct (quit_ends_loop 10 10 2
              [{| event := {| type := QUIT; key := 0; button := 0 |};
                  mouse_pos := (0, 0); rand := λ _, 0%Q |}]
              [[key_press K_SPACE]; []] initial_state)
    as (s' & Hs' & _ & Hloop); [reflexivity | reflexivity |].
  rewrite Hloop. vm_compute in Hs'. injection Hs' as <-. reflexivity.
Defined.

Lemma main_loop_stopped (ROWS COLS UPDATE_FREQ : Z)
    (frames : list (list Input)) (s : State) :
  running s = false → main_loop ROWS COLS UPDATE_FREQ frames s = Some s.
Proof. intros Hoff. destruct frames; simpl; [done|]. by rewrite Hoff. Qed.

(** X18. The loop never raises, whatever frames it is given, and running it
    over two runs of frames one after the other is running it over the
    first and then over the second from where the first ended. *)
Theorem main_loop_app (ROWS COLS UPDATE_FREQ : Z)
    (frames frames' : list (list Input)) (s : State) :
  is_Some (main_loop ROWS COLS UPDATE_FREQ frames s)
  ∧ main_loop ROWS COLS UPDATE_FREQ (frames ++ frames') s
    = main_loop ROWS COLS UPDATE_FREQ frames s
        ≫= main_loop ROWS COLS UPDATE_FREQ frames'.
Proof.
  revert s. induction frames as [|events frames IH]; intros s; simpl.
  - split; [by eexists | done].
  - destruct (running s) eqn:Hrun.
    + destruct (main_step_total ROWS COLS UPDATE_FREQ events s)
        as (s1 & _ & ->). simpl. apply IH.
    + split; [by eexists|]. simpl. by rewrite main_loop_stopped.
Qed.

Lemma main_step_quiet (ROWS COLS UPDATE_FREQ : Z) (s : State) :
  main_step ROWS COLS UPDATE_FREQ [] s = update ROWS COLS UPDATE_FREQ (advance s).
Proof. unfold main_step. by destruct (update _ _ _ _). Qed.

(** Frames without events while playing, as long as the threshold is not
    reached: both counters go up by one per frame and the set stays. *)
Lemma quiet_frames_wait (ROWS COLS UPDATE_FREQ : Z) (k : nat) (s : State) :
  playing s = true → running s = true →
  count s + Z.of_nat k < UPDATE_FREQ →
  main_loop ROWS COLS UPDATE_FREQ (replicate k []) s
  = Some {| grid_positions := grid_positions s;
            count := count s + Z.of_nat k;
            playing := true; running := true;
            iteration := iteration s + Z.of_nat k |}.
Proof.
  revert s. induction k as [|k IH]; intros s Hplay Hrun Hlt.
  - simpl. destruct s as [g c pl rn it]. simpl in *. subst.
    by rewrite !Z.add_0_r.
  - simpl. rewrite Hrun, main_step_quiet.
    assert (advance s
            = {| grid_positions := grid_positions s; count := count s + 1;
                 playing := true; running := true;
                 iteration := iteration s + 1 |}) as Hadv.
    { unfold advance. by rewrite Hplay, Hrun. }
    destruct (update_cases ROWS COLS UPDATE_FREQ (advance s))
      as [[_ ->] | [Hdue _]]; [|rewrite Hadv in Hdue; simpl in Hdue; lia].
    simpl. rewrite IH; rewrite Hadv; simpl; [|done|done|lia].
    do 2 f_equal; lia.
Qed.

(** X19. The update period.  From a playing state, frames without events
    leave the set alone and add one to both counters for as long as
    [count] stays below the threshold; the frame in which [count] reaches
    it installs the next generation and sets [count] back to 0, while
    [iteration] has gone up by one in each of these frames. *)
Theorem quiet_frames_period (ROWS COLS UPDATE_FREQ : Z) (k : nat) (s : State) :
  playing s = true → running s = true →
  count s + Z.of_nat k + 1 = UPDATE_FREQ →
  main_loop ROWS COLS UPDATE_FREQ (replicate k []) s
  = Some {| grid_positions := grid_positions s;
            count := count s + Z.of_nat k;
            playing := true; running := true;
            iteration := iteration s + Z.of_nat k |}
  ∧ ∃ next, apply_rules ROWS COLS (grid_positions s) = Some next ∧
      main_loop ROWS COLS UPDATE_FREQ (replicate (S k) []) s
      = Some {| grid_positions := next; count := 0;
                playing := true; running := true;
                iteration := iteration s + Z.of_nat k + 1 |}.
Proof.
  intros Hplay Hrun Hdue.
  pose proof (quiet_frames_wait ROWS COLS UPDATE_FREQ k s Hplay Hrun
                ltac:(lia)) as Hwait.
  split; [done|].
  destruct (apply_rules_elem_of ROWS COLS (grid_positions s))
    as (next & Hnext & _).
  exists next. split; [done|].
  replace (S k) with (k + 1)%nat by lia.
  rewrite replicate_add.
  destruct (main_loop_app ROWS COLS UPDATE_FREQ (replicate k []) (replicate 1 []) s)
    as [_ ->].
  rewrite Hwait. simpl. rewrite main_step_quiet.
  unfold advance, update. simpl.
  rewrite bool_decide_eq_true_2 by lia. rewrite Hnext. simpl. done.
Qed.

Lemma quiet_frames_period_witness :
  grid_positions <$> main_loop 10 10 3 (replicate 2 []) (playing_empty 0 0)
  = Some ∅.
Proof.
  destruct (quiet_frames_period 10 10 3 2 (playing_empty 0 0))
    as [Hwait _]; [reflexivity | reflexivity | reflexivity |].
  rewrite Hwait. reflexivity.
Defined.

Lemma playing_ticks_nonneg (h : History) : 0 ≤ playing_ticks_since_reset h.
Proof.
  induction h as [|[s events] h IH]; simpl; [lia|].
  destruct (has_reset events); [lia|]. destruct (playing s); lia.
Qed.

(** X20. At the top of the loop, for a positive threshold, [count] is at
    least 0 and below the threshold and [iteration] is at least 0. *)
Theorem counters_in_range (ROWS COLS UPDATE_FREQ : Z) (adm : Input → Prop)
    (h : History) (s : State) :
  0 < UPDATE_FREQ →
  reachable ROWS COLS UPDATE_FREQ adm h s →
  (0 ≤ count s < UPDATE_FREQ) ∧ 0 ≤ iteration s.
Proof.
  intros HF Hreach. split.
  - by apply (reachable_count ROWS COLS UPDATE_FREQ adm h).
  - rewrite (reachable_iteration _ _ _ _ _ _ Hreach).
    apply playing_ticks_nonneg.
Qed.

Lemma counters_in_range_witness :
  (0 ≤ count (playing_empty 1 1) < 2) ∧ 0 ≤ iteration (playing_empty 1 1).
Proof.
  apply (counters_in_range 10 10 2 (λ _, True)
           [(playing_empty 0 0, []); (initial_state, [key_press K_SPACE])]);
    [reflexivity|].
  apply reach_frame; [|reflexivity|constructor|reflexivity].
  apply reach_frame; [apply reach_init|reflexivity| |reflexivity].
  repeat constructor.
Defined.

(** X21. For a positive threshold the number of generations computed since
    the latest reset never exceeds [iteration], since a generation is only
    computed in a frame that started playing; with threshold 1 every such
    frame computes one and the two are equal. *)
Theorem transitions_le_iteration (ROWS COLS UPDATE_FREQ : Z)
    (adm : Input → Prop) (h : History) (s : State) :
  0 < UPDATE_FREQ →
  reachable ROWS COLS UPDATE_FREQ adm h s →
  transitions_since_reset UPDATE_FREQ h ≤ iteration s
  ∧ (UPDATE_FREQ = 1 → transitions_since_reset UPDATE_FREQ h = iteration s).
Proof.
  intros HF Hreach.
  rewrite (reachable_iteration _ _ _ _ _ _ Hreach).
  induction Hreach as [|h s events s' Hreach IH Hrun Hadm Hstep];
    simpl; [lia|].
  destruct (has_reset events); [lia|].
  pose proof (reachable_count _ _ _ _ _ _ HF Hreach) as Hcount.
  destruct (advance_fields s) as (_ & _ & _ & Hc & _).
  unfold transition_due. rewrite Hc.
  destruct (playing s); case_bool_decide; lia.
Qed.

Lemma transitions_le_iteration_witness :
  transitions_since_reset 1
    [(playing_empty 0 0, []); (initial_state, [key_press K_SPACE])]
  = iteration (playing_empty 0 1).
Proof.
  destruct (transitions_le_iteration 10 10 1 (λ _, True)
              [(playing_empty 0 0, []); (initial_state, [key_press K_SPACE])]
              (playing_empty 0 1)) as [_ Heq]; [reflexivity| |].
  - apply reach_frame; [|reflexivity|constructor|reflexivity].
    apply reach_frame; [apply reach_init|reflexivity| |reflexivity].
    repeat constructor.
  - by apply Heq.
Defined.
